(** * Orchestrator core: task graph, scheduler, interrupts and hooks

    A shallow embedding of the Python orchestrator's core
    ([orchestrator/tasks/manager.py], [orchestrator/core/interrupt.py],
    [orchestrator/hooks/engine.py], the completion / execution paths of
    [orchestrator/core/orchestrator.py] and the dependency operations of
    [orchestrator/tools/builtin/task_decompose.py]) together with the
    properties its specification states about them and further properties
    of the same code.

    Conventions of the embedding:
    - task ids are Python [str], here [string];
    - [TaskManager.tasks] is a Python [dict]: lookups by key, iteration in
      insertion order.  It is an association list that [set_task] updates in
      place (an existing key keeps its position, a new key goes last);
    - a coroutine of the manager is a function from the collection into
      [Res]: [Return a tasks] or [Raise e tasks], with the collection as it
      was when the call returned or the exception left the method;
    - recursion and [while] loops carry a fuel argument; for each of them a
      lemma shows that the fuel the caller passes is enough;
    - timestamps, titles and descriptions play no part in the properties
      below and are left out of the [Task] record;
    - of the logging only the hook engine's is kept, as the list of hooks
      that were reached. *)

From stdpp Require Import prelude strings pretty sorting gmap.
From Stdlib Require Import ZArith Lia.

#[local] Set Warnings "-clear-no-such-hyp".

(** ** Generic helpers *)

(** Python truthiness of a [str]. *)
Definition truthy (s : string) : bool := negb (bool_decide (s = "")).

(** [list.sort(key=...)] is a stable sort; the stable insertion sort below
    computes the same list. *)
Section StableSort.
Context {A : Type} (key : A → Z).

Fixpoint insert_by (x : A) (l : list A) : list A :=
  match l with
  | [] => [x]
  | y :: l' => if decide (key x ≤ key y)%Z then x :: l else y :: insert_by x l'
  end.

Definition sort_by_key (l : list A) : list A := foldr insert_by [] l.

End StableSort.

(** ** [orchestrator/tasks/models.py] *)

Module Tasks.

Inductive TaskStatus :=
  PENDING | IN_PROGRESS | BLOCKED | COMPLETED | FAILED | CANCELLED.

Inductive TaskPriority := CRITICAL | HIGH | MEDIUM | LOW.

#[export] Instance TaskStatus_eq_dec : EqDecision TaskStatus.
Proof. solve_decision. Defined.

#[export] Instance TaskPriority_eq_dec : EqDecision TaskPriority.
Proof. solve_decision. Defined.

Record Task := mkTask {
  task_id : string;
  status : TaskStatus;
  priority : TaskPriority;
  parent_id : option string;
  subtasks : list string;
  depends_on : list string;
  blocks : list string;
  result : option string;
  error : option string;
}.

(** [Task(id=i)] with every other field at its default. *)
Definition new_task (i : string) : Task :=
  {| task_id := i; status := PENDING; priority := MEDIUM; parent_id := None;
     subtasks := []; depends_on := []; blocks := [];
     result := None; error := None |}.

Definition set_status (st : TaskStatus) (t : Task) : Task :=
  {| task_id := task_id t; status := st; priority := priority t;
     parent_id := parent_id t; subtasks := subtasks t;
     depends_on := depends_on t; blocks := blocks t;
     result := result t; error := error t |}.

Definition set_depends_on (l : list string) (t : Task) : Task :=
  {| task_id := task_id t; status := status t; priority := priority t;
     parent_id := parent_id t; subtasks := subtasks t;
     depends_on := l; blocks := blocks t;
     result := result t; error := error t |}.

Definition set_blocks (l : list string) (t : Task) : Task :=
  {| task_id := task_id t; status := status t; priority := priority t;
     parent_id := parent_id t; subtasks := subtasks t;
     depends_on := depends_on t; blocks := l;
     result := result t; error := error t |}.

Definition set_result (r : option string) (t : Task) : Task :=
  {| task_id := task_id t; status := status t; priority := priority t;
     parent_id := parent_id t; subtasks := subtasks t;
     depends_on := depends_on t; blocks := blocks t;
     result := r; error := error t |}.

Definition set_error (e : option string) (t : Task) : Task :=
  {| task_id := task_id t; status := status t; priority := priority t;
     parent_id := parent_id t; subtasks := subtasks t;
     depends_on := depends_on t; blocks := blocks t;
     result := result t; error := e |}.

(** ** [orchestrator/tasks/manager.py]: the task collection *)

(** [self.tasks : dict[str, Task]], in insertion order. *)
Abbreviation TaskStore := (list (string * Task)).

(** [self.tasks.get(task_id)] *)
Fixpoint get_task (tasks : TaskStore) (k : string) : option Task :=
  match tasks with
  | [] => None
  | (k', t) :: rest => if decide (k' = k) then Some t else get_task rest k
  end.

(** [self.tasks[k] = t] *)
Fixpoint set_task (tasks : TaskStore) (k : string) (t : Task) : TaskStore :=
  match tasks with
  | [] => [(k, t)]
  | (k', t') :: rest =>
      if decide (k' = k) then (k, t) :: rest else (k', t') :: set_task rest k t
  end.

(** [list(self.tasks.values())] *)
Definition values (tasks : TaskStore) : list Task := tasks.*2.

Definition keys (tasks : TaskStore) : list string := tasks.*1.

(** [list_tasks(status, parent_id)]; every [TaskStatus] member is a
    non-empty [str], so [if status:] tests for [None]. *)
Definition list_tasks (tasks : TaskStore)
    (st : option TaskStatus) (pid : option string) : list Task :=
  let ts := values tasks in
  let ts := match st with
            | Some s => filter (λ t, status t = s) ts
            | None => ts
            end in
  match pid with
  | Some p => filter (λ t, parent_id t = Some p) ts
  | None => ts
  end.

(** [dep_task and dep_task.status == COMPLETED] for the task stored at [k]. *)
Definition is_completed (tasks : TaskStore) (k : string) : bool :=
  match get_task tasks k with
  | Some t => bool_decide (status t = COMPLETED)
  | None => false
  end.

Definition _is_task_executable (tasks : TaskStore) (task : Task) : bool :=
  if negb (forallb (is_completed tasks) (depends_on task)) then false
  else if negb (forallb (is_completed tasks) (subtasks task)) then false
  else
    match parent_id task with
    | Some pid =>
        if truthy pid then
          match get_task tasks pid with
          | Some parent =>
              bool_decide (status parent ∈ [IN_PROGRESS; COMPLETED])
          | None => false
          end
        else true
    | None => true
    end.

Definition priority_order (p : TaskPriority) : Z :=
  match p with
  | CRITICAL => 0
  | HIGH => 1
  | MEDIUM => 2
  | LOW => 3
  end.

Definition get_next_executable_task (tasks : TaskStore) : option Task :=
  let pending_tasks := list_tasks tasks (Some PENDING) None in
  match pending_tasks with
  | [] => None
  | _ =>
      let executable_tasks :=
        filter (λ t, _is_task_executable tasks t) pending_tasks in
      match executable_tasks with
      | [] => None
      | _ => head (sort_by_key (λ t, priority_order (priority t)) executable_tasks)
      end
  end.

(** *** Methods that mutate the collection or raise *)

(** The exceptions the manager raises, by the message they carry. *)
Inductive Exn :=
  | TaskNotFound (k : string)         (* KeyError *)
  | DependencyNotFound (k : string)   (* KeyError *)
  | SelfDependency                    (* ValueError *)
  | CycleDetected (k d : string)      (* ValueError: would create a cycle *)
  | MaxPendingReached                 (* RuntimeError *)
  | CycleInGraph                      (* ValueError: cycle in task graph *)
  | RuntimeError (msg : string).

#[export] Instance Exn_eq_dec : EqDecision Exn.
Proof. solve_decision. Defined.

(** Outcome of a method call: how it left, and the collection it left. *)
Inductive Res (A : Type) :=
  | Return (a : A) (tasks : TaskStore)
  | Raise (e : Exn) (tasks : TaskStore).
Arguments Return {A} a tasks.
Arguments Raise {A} e tasks.

Definition M (A : Type) : Type := TaskStore → Res A.

Definition ret {A} (a : A) : M A := λ tasks, Return a tasks.

Definition bind {A B} (m : M A) (f : A → M B) : M B :=
  λ tasks,
    match m tasks with
    | Return a tasks' => f a tasks'
    | Raise e tasks' => Raise e tasks'
    end.

Definition raise {A} (e : Exn) : M A := λ tasks, Raise e tasks.

Definition final_store {A} (r : Res A) : TaskStore :=
  match r with
  | Return _ tasks => tasks
  | Raise _ tasks => tasks
  end.

#[export] Instance M_ret : MRet M := @ret.
#[export] Instance M_bind : MBind M := λ A B f m, bind m f.

(** [await self.get_task(k)] *)
Definition get (k : string) : M (option Task) :=
  λ tasks, Return (get_task tasks k) tasks.

(** In-place mutation of the object stored under [k], as done through a
    reference obtained from [get_task(k)].  Distinct keys hold distinct
    objects. *)
Definition mutate (k : string) (f : Task → Task) : M unit :=
  λ tasks,
    match get_task tasks k with
    | Some t => Return () (set_task tasks k (f t))
    | None => Return () tasks
    end.

Definition when (b : bool) (m : M unit) : M unit := if b then m else ret ().

(** [self.config] *)
Record Config := mkConfig {
  max_pending_tasks : nat;
  auto_block_on_dependency : bool;
}.

Definition default_config : Config :=
  {| max_pending_tasks := 100; auto_block_on_dependency := true |}.

Definition create_task (config : Config) (task : Task) : M Task :=
  λ tasks,
    let pending_count := length (filter (λ t, status t = PENDING) (values tasks)) in
    if decide (max_pending_tasks config ≤ pending_count) then
      Raise MaxPendingReached tasks
    else Return task (set_task tasks (task_id task) task).

(** One [key: value] entry of the [updates] dict of [update_task], for the
    fields kept in [Task]; entries whose key is not an attribute of [Task]
    are skipped by the code and have no counterpart here. *)
Inductive Update :=
  | UTaskId (i : string)
  | UStatus (st : TaskStatus)
  | UResult (r : option string)
  | UError (e : option string)
  | UPriority (p : TaskPriority)
  | UParentId (p : option string)
  | USubtasks (l : list string)
  | UDependsOn (l : list string)
  | UBlocks (l : list string).

Definition apply_update (t : Task) (u : Update) : Task :=
  match u with
  | UTaskId i =>
      {| task_id := i; status := status t; priority := priority t;
         parent_id := parent_id t; subtasks := subtasks t;
         depends_on := depends_on t; blocks := blocks t;
         result := result t; error := error t |}
  | UStatus st => set_status st t
  | UResult r => set_result r t
  | UError e => set_error e t
  | UPriority p =>
      {| task_id := task_id t; status := status t; priority := p;
         parent_id := parent_id t; subtasks := subtasks t;
         depends_on := depends_on t; blocks := blocks t;
         result := result t; error := error t |}
  | UParentId p =>
      {| task_id := task_id t; status := status t; priority := priority t;
         parent_id := p; subtasks := subtasks t;
         depends_on := depends_on t; blocks := blocks t;
         result := result t; error := error t |}
  | USubtasks l =>
      {| task_id := task_id t; status := status t; priority := priority t;
         parent_id := parent_id t; subtasks := l;
         depends_on := depends_on t; blocks := blocks t;
         result := result t; error := error t |}
  | UDependsOn l => set_depends_on l t
  | UBlocks l => set_blocks l t
  end.

Definition update_task (k : string) (updates : list Update) : M Task :=
  λ tasks,
    match get_task tasks k with
    | None => Raise (TaskNotFound k) tasks
    | Some task =>
        let task := foldl apply_update task updates in
        Return task (set_task tasks k task)
    end.

(** [del self.tasks[k]] *)
Fixpoint del_task (tasks : TaskStore) (k : string) : TaskStore :=
  match tasks with
  | [] => []
  | (k', t) :: rest =>
      if decide (k' = k) then del_task rest k else (k', t) :: del_task rest k
  end.

Definition delete_task (k : string) : M bool :=
  λ tasks,
    match get_task tasks k with
    | Some _ => Return true (del_task tasks k)
    | None => Return false tasks
    end.

(** [load_state]: [doc] is the parsed ["tasks"] object of the state file,
    in document order. *)
Definition load_state (doc : list (string * Task)) : M unit :=
  λ tasks, Return () (foldl (λ acc kt, set_task acc kt.1 kt.2) tasks doc).

(** *** Cycle check *)

(** The [for dep_id in task.depends_on] loop of [_has_cycle_dfs]; [visited]
    is one set shared by the whole search, so each call hands it on. *)
Fixpoint dfs_deps (rec : string → gset string → option (bool * gset string))
    (deps : list string) (visited : gset string)
    : option (bool * gset string) :=
  match deps with
  | [] => Some (false, visited)
  | dep_id :: deps' =>
      match rec dep_id visited with
      | None => None
      | Some (true, visited') => Some (true, visited')
      | Some (false, visited') => dfs_deps rec deps' visited'
      end
  end.

(** [_has_cycle_dfs(start, target, visited)], with the recursion depth
    bounded by [fuel]; [None] is "out of fuel". *)
Fixpoint _has_cycle_dfs (fuel : nat) (tasks : TaskStore)
    (start target : string) (visited : gset string)
    : option (bool * gset string) :=
  match fuel with
  | 0 => None
  | S fuel' =>
      if decide (start = target) then Some (true, visited)
      else if decide (start ∈ visited) then Some (false, visited)
      else
        let visited := {[start]} ∪ visited in
        match get_task tasks start with
        | None => Some (false, visited)
        | Some task =>
            dfs_deps (λ d v, _has_cycle_dfs fuel' tasks d target v)
              (depends_on task) visited
        end
  end.

(** Every nested call marks a fresh key of the collection as visited, so
    the depth never exceeds the number of keys plus one (lemma
    [_has_cycle_dfs_total]); the [None] branch is never taken. *)
Definition _has_dependency_cycle (tasks : TaskStore)
    (task_id new_dependency_id : string) : bool :=
  match _has_cycle_dfs (S (length tasks)) tasks new_dependency_id task_id ∅ with
  | Some (b, _) => b
  | None => false
  end.

(** *** Dependency edges *)

Definition append_once (x : string) (l : list string) : list string :=
  if decide (x ∈ l) then l else l ++ [x].

(** [l.remove(x)] guarded by [if x in l]: drops the first occurrence. *)
Fixpoint remove_first (x : string) (l : list string) : list string :=
  match l with
  | [] => []
  | y :: l' => if decide (y = x) then l' else y :: remove_first x l'
  end.

Definition has_dependency_cycle (task_id depends_on_id : string) : M bool :=
  λ tasks, Return (_has_dependency_cycle tasks task_id depends_on_id) tasks.

Definition add_dependency (config : Config) (task_id depends_on_id : string)
    : M unit :=
  task ← get task_id;
  depends_on_task ← get depends_on_id;
  match task, depends_on_task with
  | None, _ => raise (TaskNotFound task_id)
  | Some _, None => raise (DependencyNotFound depends_on_id)
  | Some _, Some _ =>
      if decide (task_id = depends_on_id) then raise SelfDependency
      else
        cyc ← has_dependency_cycle task_id depends_on_id;
        if (cyc : bool) then raise (CycleDetected task_id depends_on_id)
        else
          mutate task_id
            (λ t, set_depends_on (append_once depends_on_id (depends_on t)) t);;
          mutate depends_on_id
            (λ t, set_blocks (append_once task_id (blocks t)) t);;
          task ← get task_id;
          depends_on_task ← get depends_on_id;
          match task, depends_on_task with
          | Some task, Some depends_on_task =>
              when (auto_block_on_dependency config
                    && bool_decide (status depends_on_task ≠ COMPLETED)
                    && bool_decide (status task = PENDING))
                (mutate task_id (set_status BLOCKED))
          | _, _ => ret ()
          end
  end.

Definition remove_dependency (task_id depends_on_id : string) : M unit :=
  task ← get task_id;
  depends_on_task ← get depends_on_id;
  match task, depends_on_task with
  | None, _ => raise (TaskNotFound task_id)
  | Some _, None => raise (DependencyNotFound depends_on_id)
  | Some _, Some _ =>
      mutate task_id
        (λ t, set_depends_on (remove_first depends_on_id (depends_on t)) t);;
      mutate depends_on_id
        (λ t, set_blocks (remove_first task_id (blocks t)) t)
  end.

(** *** Execution order (Kahn's algorithm) *)

(** [len(task.depends_on)] *)
Definition in_degree_of (task : Task) : Z := Z.of_nat (length (depends_on task)).

(** The first loop: [task_map] and [in_degree] for the ids that name a
    task of the collection. *)
Definition index_tasks (tasks : TaskStore) (task_ids : list string)
    : gmap string Task * gmap string Z :=
  foldl (λ acc task_id,
           match get_task tasks task_id with
           | Some task =>
               (<[task_id := task]> acc.1, <[task_id := in_degree_of task]> acc.2)
           | None => acc
           end)
    (∅, ∅) task_ids.

(** [[tid for tid in task_ids if in_degree.get(tid, 0) == 0]] *)
Definition initial_queue (in_degree : gmap string Z) (task_ids : list string)
    : list string :=
  filter (λ tid, default 0%Z (in_degree !! tid) = 0%Z) task_ids.

(** One turn of [for blocked_id in task.blocks]; the counters are Python
    integers and may go below zero. *)
Definition relax (acc : gmap string Z * list string) (blocked_id : string)
    : gmap string Z * list string :=
  match acc.1 !! blocked_id with
  | Some n =>
      let n' := (n - 1)%Z in
      (<[blocked_id := n']> acc.1,
       if decide (n' = 0%Z) then acc.2 ++ [blocked_id] else acc.2)
  | None => acc
  end.

(** The [while queue:] loop, at most [fuel] turns of it; [None] is "out of
    fuel". *)
Fixpoint kahn_loop (fuel : nat) (task_map : gmap string Task)
    (in_degree : gmap string Z) (queue : list string) (result : list Task)
    : option (list Task) :=
  match fuel with
  | 0 => None
  | S fuel' =>
      match queue with
      | [] => Some result
      | task_id :: queue =>
          match task_map !! task_id with
          | None => kahn_loop fuel' task_map in_degree queue result
          | Some task =>
              let acc := foldl relax (in_degree, queue) (blocks task) in
              kahn_loop fuel' task_map acc.1 acc.2 (result ++ [task])
          end
      end
  end.

(** A turn of the loop takes one id off the queue, and an id is put on the
    queue only when its counter steps from 1 to 0, so the loop makes at most
    as many turns as the queue is long plus the number of counters (lemma
    [kahn_loop_total]); the [None] branch is never taken. *)
Definition get_execution_order (task_ids : list string) : M (list Task) :=
  λ tasks,
    let idx := index_tasks tasks task_ids in
    let queue := initial_queue idx.2 task_ids in
    match kahn_loop (S (length queue + size idx.2)) idx.1 idx.2 queue [] with
    | Some result =>
        if decide (length result ≠ size idx.1) then Raise CycleInGraph tasks
        else Return result tasks
    | None => Raise CycleInGraph tasks
    end.

(** *** The graph invariants of the data model *)

(** For tasks A and B of the collection, B ∈ A.depends_on ⇔ A ∈ B.blocks. *)
Definition EdgesInverse (tasks : TaskStore) : Prop :=
  ∀ a b ta tb,
    get_task tasks a = Some ta → get_task tasks b = Some tb →
    (b ∈ depends_on ta ↔ a ∈ blocks tb).

(** No edge is listed twice. *)
Definition EdgesNoDup (tasks : TaskStore) : Prop :=
  ∀ k t, get_task tasks k = Some t → NoDup (depends_on t) ∧ NoDup (blocks t).

Definition WellFormed (tasks : TaskStore) : Prop :=
  EdgesInverse tasks ∧ EdgesNoDup tasks.

(** Number of keys of the collection the search has not visited yet: what
    bounds the depth of [_has_cycle_dfs]. *)
Definition unvisited (tasks : TaskStore) (visited : gset string) : nat :=
  size ((list_to_set (keys tasks) : gset string) ∖ visited).

(** The edge lists stored under a key. *)
Definition deps_at (tasks : TaskStore) (k : string) : option (list string) :=
  depends_on <$> get_task tasks k.

Definition blocks_at (tasks : TaskStore) (k : string) : option (list string) :=
  blocks <$> get_task tasks k.

(** *** The dependency relation *)

(** The task stored under [k] lists [d] in its [depends_on]. *)
Definition depends (tasks : TaskStore) (k d : string) : Prop :=
  ∃ t, get_task tasks k = Some t ∧ d ∈ depends_on t.

(** The same between two of the given ids. *)
Definition depends_within (tasks : TaskStore) (ids : list string)
    (k d : string) : Prop :=
  k ∈ ids ∧ d ∈ ids ∧ depends tasks k d.

(** No task reaches itself along [R]. *)
Definition Acyclic (R : relation string) : Prop := ∀ k, ¬ tc R k k.

(** The given ids that name a task of the collection. *)
Definition existing (tasks : TaskStore) (ids : list string) : list string :=
  filter (λ k, is_Some (get_task tasks k)) ids.

(** Every dependency of a given task is itself a given task. *)
Definition DependencyClosed (tasks : TaskStore) (ids : list string) : Prop :=
  ∀ k d, k ∈ ids → depends tasks k d → d ∈ existing tasks ids.

(** [order] lists keys so that every key comes after all the keys its task
    depends on. *)
Definition DependenciesFirst (tasks : TaskStore) (order : list string) : Prop :=
  ∀ i k d, order !! i = Some k → depends tasks k d →
           ∃ j, j < i ∧ order !! j = Some d.

(** Number of counters above zero: with the length of the queue, what
    bounds the turns of [kahn_loop]. *)
Definition positive_count (in_degree : gmap string Z) : nat :=
  size (filter (λ kv, (0 < kv.2)%Z) in_degree).

(** What holds between the turns of [kahn_loop]: [finished] lists the keys
    whose tasks have been appended to [result], in that order. *)
Record KahnInv (task_map : gmap string Task) (in_degree : gmap string Z)
    (queue finished : list string) (result : list Task) : Prop := mkKahnInv {
  kahn_nodup : NoDup (finished ++ queue);
  kahn_result : Forall2 (λ k t, task_map !! k = Some t) finished result;
  kahn_dom : ∀ k, task_map !! k = None → in_degree !! k = None;
  kahn_degree : ∀ k t,
    task_map !! k = Some t →
    in_degree !! k
    = Some (Z.of_nat (length (filter (λ d, d ∉ finished) (depends_on t))));
  kahn_ready : ∀ k t,
    task_map !! k = Some t →
    (k ∈ finished ++ queue ↔ ∀ d, d ∈ depends_on t → d ∈ finished);
  kahn_order : ∀ i k t d,
    finished !! i = Some k → task_map !! k = Some t → d ∈ depends_on t →
    ∃ j, j < i ∧ finished !! j = Some d;
}.

(** *** The manager's operations, as one type *)





(** *** Small collections used as test inputs *)

(** B and A created in that order, both Pending, no edges. *)
Definition two_tasks : TaskStore := [("B", new_task "B"); ("A", new_task "A")].

(** The same after [add_dependency("A", "B")]. *)
Definition two_tasks_linked : TaskStore :=
  Eval vm_compute in final_store (add_dependency default_config "A" "B" two_tasks).

(** A task constructed with an edge already in it: [Task(id="A",
    depends_on=["B"])]. *)
Definition task_with_edge : Task := set_depends_on ["B"] (new_task "A").

(** *** What the scheduler promises about the task it hands out *)

(** The task stored under [k] exists and is Completed. *)
Definition CompletedIn (tasks : TaskStore) (k : string) : Prop :=
  ∃ t, get_task tasks k = Some t ∧ status t = COMPLETED.

(** A task "has a parent" exactly when [if task.parent_id:] holds. *)
Definition HasParent (t : Task) (pid : string) : Prop :=
  parent_id t = Some pid ∧ pid ≠ "".

Definition Executable (tasks : TaskStore) (t : Task) : Prop :=
  status t = PENDING
  ∧ (∀ d, d ∈ depends_on t → CompletedIn tasks d)
  ∧ (∀ c, c ∈ subtasks t → CompletedIn tasks c)
  ∧ (∀ pid, HasParent t pid →
       ∃ p, get_task tasks pid = Some p
            ∧ (status p = IN_PROGRESS ∨ status p = COMPLETED)).



(** *** Hierarchy: [_get_task_depth] and [create_subtask] *)

(** The task stored under [k] names [p] as its parent ([if task.parent_id]
    holds). *)
Definition parent_of (tasks : TaskStore) (k p : string) : Prop :=
  ∃ t, get_task tasks k = Some t ∧ HasParent t p.

(** [_get_task_depth(task_id)] with the depth of its recursion bounded by
    [fuel]; [None] is "out of fuel". *)
Fixpoint _get_task_depth (fuel : nat) (tasks : TaskStore) (task_id : string)
    : option nat :=
  match fuel with
  | 0 => None
  | S fuel' =>
      match get_task tasks task_id with
      | None => Some 0
      | Some task =>
          match parent_id task with
          | Some pid =>
              if truthy pid then S <$> _get_task_depth fuel' tasks pid
              else Some 0
          | None => Some 0
          end
      end
  end.

(** A chain of parents that does not return to a key it has left is no
    longer than the collection (lemma [get_task_depth_chain_total]); on a chain
    that does, the recursion never ends at any fuel (lemma
    [_get_task_depth_cyclic]) and Python stops it with a [RecursionError]. *)
Definition get_task_depth (tasks : TaskStore) (task_id : string) : option nat :=
  _get_task_depth (S (length tasks)) tasks task_id.

(** [self.config.get("max_depth", 5)] and
    [self.config.get("max_subtasks_per_task", 20)]. *)
Record Limits := mkLimits {
  max_depth : nat;
  max_subtasks_per_task : nat;
}.

Definition default_limits : Limits :=
  {| max_depth := 5; max_subtasks_per_task := 20 |}.

(** What leaves [create_subtask] as an exception. *)
Inductive SubtaskExn :=
  | ParentNotFound (k : string)                     (* KeyError *)
  | RecursionLimit                                  (* RecursionError *)
  | MaxDepthExceeded (limit : nat) (k : string)     (* RuntimeError *)
  | MaxSubtasksExceeded (limit : nat) (k : string)  (* RuntimeError *)
  | FromCreateTask (e : Exn).

(** [Task(parent_id=parent_id, priority=priority or MEDIUM)]; [new_id] is
    the [uuid4] the constructor draws. *)
Definition new_subtask (new_id parent_id : string)
    (priority : option TaskPriority) : Task :=
  {| task_id := new_id; status := PENDING; priority := default MEDIUM priority;
     parent_id := Some parent_id; subtasks := []; depends_on := [];
     blocks := []; result := None; error := None |}.

Definition append_subtask (c : string) (t : Task) : Task :=
  {| task_id := task_id t; status := status t; priority := priority t;
     parent_id := parent_id t; subtasks := subtasks t ++ [c];
     depends_on := depends_on t; blocks := blocks t;
     result := result t; error := error t |}.

(** [create_subtask(parent_id, title, description, priority)], called as
    the decomposition tool calls it, without further keyword arguments.
    [parent] is the object read at the start: the final [append] goes to
    that object, which is the one stored under [parent_id] unless
    [create_task] has just stored the subtask under that very key. *)
Definition create_subtask (config : Config) (limits : Limits)
    (new_id parent_id : string) (priority : option TaskPriority)
    (tasks : TaskStore) : (SubtaskExn + Task) * TaskStore :=
  match get_task tasks parent_id with
  | None => (inl (ParentNotFound parent_id), tasks)
  | Some parent =>
      match get_task_depth tasks parent_id with
      | None => (inl RecursionLimit, tasks)
      | Some depth =>
          if decide (max_depth limits ≤ depth) then
            (inl (MaxDepthExceeded (max_depth limits) parent_id), tasks)
          else if decide (max_subtasks_per_task limits ≤ length (subtasks parent))
          then (inl (MaxSubtasksExceeded (max_subtasks_per_task limits) parent_id),
                tasks)
          else
            let subtask := new_subtask new_id parent_id priority in
            match create_task config subtask tasks with
            | Raise e tasks' => (inl (FromCreateTask e), tasks')
            | Return subtask tasks' =>
                (inr subtask,
                 if decide (new_id = parent_id) then tasks'
                 else set_task tasks' parent_id (append_subtask new_id parent))
            end
      end
  end.



(** An id as [uuid4] draws it: not a key of the collection and not held by
    any task, neither as a parent nor as a subtask. *)
Definition FreshId (tasks : TaskStore) (i : string) : Prop :=
  get_task tasks i = None
  ∧ ∀ k t, get_task tasks k = Some t →
           parent_id t ≠ Some i ∧ (i ∉ subtasks t).

(** *** [get_dependencies] *)

Record Dependencies := mkDependencies {
  dependencies_depends_on : list Task;
  dependencies_blocks : list Task;
  dependencies_subtasks : list Task;
  dependencies_parent : option Task;
}.

(** The three loops keep the ids that name a task, in list order. *)
Definition get_dependencies (task_id : string) : M Dependencies :=
  λ tasks,
    match get_task tasks task_id with
    | None => Raise (TaskNotFound task_id) tasks
    | Some task =>
        Return
          {| dependencies_depends_on := omap (get_task tasks) (depends_on task);
             dependencies_blocks := omap (get_task tasks) (blocks task);
             dependencies_subtasks := omap (get_task tasks) (subtasks task);
             dependencies_parent :=
               match parent_id task with
               | Some pid => if truthy pid then get_task tasks pid else None
               | None => None
               end |}
          tasks
    end.

(** *** Counting *)

(** [len(await self.list_tasks(status=TaskStatus.PENDING))] *)
Definition pending_count (tasks : TaskStore) : nat :=
  length (list_tasks tasks (Some PENDING) None).

End Tasks.

(** ** [orchestrator/core/interrupt.py] *)

Module Interrupt.

Inductive InterruptType := NONE | SOFT | HARD.

Inductive InterruptReason := USER_REQUEST | TIMEOUT | ERROR | SHUTDOWN.

#[export] Instance InterruptType_eq_dec : EqDecision InterruptType.
Proof. solve_decision. Defined.

(** [timestamp] is a reading of [time.time()]; the clock is an input of the
    model and its readings are integers here. *)
Record InterruptState := mkInterruptState {
  requested : bool;
  interrupt_type : InterruptType;
  reason : InterruptReason;
  message : option string;
  timestamp : option Z;
}.

(** [InterruptState()] *)
Definition InterruptState_default : InterruptState :=
  {| requested := false; interrupt_type := NONE; reason := USER_REQUEST;
     message := None; timestamp := None |}.

(** The controller's fields; [_interrupt_event] is the flag of the
    [asyncio.Event].  Registered callbacks only read the state they are
    handed and their exceptions are caught, so they are left out. *)
Record InterruptController := mkInterruptController {
  _state : InterruptState;
  _interrupt_event : bool;
  _interrupt_count : Z;
  _soft_interrupt_limit : Z;
}.

(** [InterruptController(soft_interrupt_limit)] *)
Definition init (soft_interrupt_limit : Z) : InterruptController :=
  {| _state := InterruptState_default; _interrupt_event := false;
     _interrupt_count := 0; _soft_interrupt_limit := soft_interrupt_limit |}.

(** [request_interrupt] and [request_interrupt_sync] update the fields in
    the same way. *)
Definition request_interrupt (c : InterruptController)
    (ty : InterruptType) (rs : InterruptReason) (msg : option string)
    (now : Z) : InterruptController :=
  let count := (_interrupt_count c + 1)%Z in
  let escalate := bool_decide (_soft_interrupt_limit c < count)%Z in
  let ty := if escalate then HARD else ty in
  let msg :=
    if escalate
    then Some ("Escalated to HARD interrupt after " +:+ pretty count +:+ " requests")
    else msg in
  {| _state := {| requested := true; interrupt_type := ty; reason := rs;
                  message := msg; timestamp := Some now |};
     _interrupt_event := true;
     _interrupt_count := count;
     _soft_interrupt_limit := _soft_interrupt_limit c |}.

Definition check_interrupt (c : InterruptController) : option InterruptState :=
  if requested (_state c) then Some (_state c) else None.

Definition reset (c : InterruptController) : InterruptController :=
  {| _state := InterruptState_default; _interrupt_event := false;
     _interrupt_count := 0; _soft_interrupt_limit := _soft_interrupt_limit c |}.

(** The [interrupt_type] and [interrupt_count] properties. *)
Definition current_type (c : InterruptController) : InterruptType :=
  interrupt_type (_state c).

Definition interrupt_count (c : InterruptController) : Z := _interrupt_count c.

(** The [is_interrupted] property. *)
Definition is_interrupted (c : InterruptController) : bool := requested (_state c).

(** The arguments of one call of [request_interrupt] (or
    [request_interrupt_sync]) and the clock reading it takes. *)
Record Request := mkRequest {
  request_type : InterruptType;
  request_reason : InterruptReason;
  request_message : option string;
  request_time : Z;
}.

Definition request (c : InterruptController) (r : Request) : InterruptController :=
  request_interrupt c (request_type r) (request_reason r) (request_message r)
    (request_time r).

(** Requests made one after the other. *)
Definition request_interrupts (c : InterruptController) (reqs : list Request)
    : InterruptController :=
  foldl request c reqs.

(** The controllers a program can reach: constructed, then driven through
    the request and reset methods only. *)
Inductive Reachable : InterruptController → Prop :=
  | reachable_init soft_interrupt_limit : Reachable (init soft_interrupt_limit)
  | reachable_request c r : Reachable c → Reachable (request c r)
  | reachable_reset c : Reachable c → Reachable (reset c).

End Interrupt.

(** ** [orchestrator/hooks/base.py] and [orchestrator/hooks/engine.py] *)

Module Hooks.

(** How a call into a hook comes back: with a value or with an exception
    ([except Exception]). *)
Inductive Outcome (A : Type) :=
  | Returns (a : A)
  | Throws (exc : string).
Arguments Returns {A} a.
Arguments Throws {A} exc.

(** What the engine writes to its log about one hook; the log tells which
    hooks were reached. *)
Inductive LogEntry :=
  | Skipped (name : string)
  | Executing (name : string) (priority : Z)
  | Blocked (name : string) (reason : string)
  | Errored (name : string) (exc : string).

Section Model.
(** The values of a [dict[str, Any]]. *)
Context {Any : Type}.

(** [orchestrator_state] is a reference handed on unchanged and is left
    out. *)
Record HookContext := mkHookContext {
  event : string;
  data : gmap string Any;
  metadata : gmap string Any;
}.

Record HookResult := mkHookResult {
  action : string;
  reason : option string;
  modified_context : option (gmap string Any);
  result_metadata : option (gmap string Any);
}.

(** A hook is handed the one shared, mutable context: both methods return
    the context as they left it. *)
Record Hook := mkHook {
  hook_name : string;
  should_run : HookContext → HookContext * Outcome bool;
  execute : HookContext → HookContext * Outcome HookResult;
}.

Record HookEngine := mkHookEngine {
  hooks : gmap string (list (Z * Hook));
  enabled : bool;
}.

(** [register]: append, then [sort(key=priority)]. *)
Definition register (engine : HookEngine) (ev : string) (hook : Hook)
    (priority : Z) : HookEngine :=
  {| hooks := <[ev := sort_by_key fst (default [] (hooks engine !! ev)
                                        ++ [(priority, hook)])]> (hooks engine);
     enabled := enabled engine |}.

(** [HookResult(action="continue")] *)
Definition continue_result : HookResult :=
  {| action := "continue"; reason := None;
     modified_context := None; result_metadata := None |}.

(** [d.update(patch)] guarded by [if patch:]; an empty patch is skipped by
    the guard and would change nothing. *)
Definition dict_update (d : gmap string Any) (patch : option (gmap string Any))
    : gmap string Any :=
  match patch with
  | Some m => m ∪ d
  | None => d
  end.

(** The context after [result.modified_context] and [result.metadata] have
    been folded in. *)
Definition fold_result (context : HookContext) (result : HookResult)
    : HookContext :=
  {| event := event context;
     data := dict_update (data context) (modified_context result);
     metadata := dict_update (metadata context) (result_metadata result) |}.

(** [result.reason or "Blocked by hook"] *)
Definition block_reason (result : HookResult) : string :=
  match reason result with
  | Some r => if truthy r then r else "Blocked by hook"
  | None => "Blocked by hook"
  end.

(** How the [for priority, hook in all_hooks] loop ends: by the [return]
    inside it, or by running off the end of the list. *)
Inductive LoopResult :=
  | Stopped (result : HookResult) (log : list LogEntry)
  | Passed (context : HookContext) (log : list LogEntry).

Definition logged (entries : list LogEntry) (r : LoopResult) : LoopResult :=
  match r with
  | Stopped result log => Stopped result (entries ++ log)
  | Passed context log => Passed context (entries ++ log)
  end.

Fixpoint run_hooks (context : HookContext) (all_hooks : list (Z * Hook))
    : LoopResult :=
  match all_hooks with
  | [] => Passed context []
  | (priority, hook) :: rest =>
      match should_run hook context with
      | (context, Throws e) =>
          logged [Errored (hook_name hook) e] (run_hooks context rest)
      | (context, Returns false) =>
          logged [Skipped (hook_name hook)] (run_hooks context rest)
      | (context, Returns true) =>
          match execute hook context with
          | (context, Throws e) =>
              logged [Executing (hook_name hook) priority;
                      Errored (hook_name hook) e]
                (run_hooks context rest)
          | (context, Returns result) =>
              let context := fold_result context result in
              if decide (action result = "block") then
                Stopped {| action := "block";
                           reason := Some (block_reason result);
                           modified_context := Some (data context);
                           result_metadata := None |}
                  [Executing (hook_name hook) priority;
                   Blocked (hook_name hook) (block_reason result)]
              else
                logged [Executing (hook_name hook) priority]
                  (run_hooks context rest)
          end
      end
  end.

(** [event_hooks + wildcard_hooks], sorted by priority. *)
Definition all_hooks_for (engine : HookEngine) (ev : string)
    : list (Z * Hook) :=
  let event_hooks := default [] (hooks engine !! ev) in
  let wildcard_hooks := default [] (hooks engine !! "*") in
  sort_by_key fst (event_hooks ++ wildcard_hooks).

(** The context the chain starts from; [metadata or {}]. *)
Definition initial_context (ev : string) (data0 : gmap string Any)
    (metadata0 : option (gmap string Any)) : HookContext :=
  {| event := ev; data := data0; metadata := default ∅ metadata0 |}.

(** What [trigger] returns for a given end of the loop. *)
Definition finish (r : LoopResult) : HookResult * list LogEntry :=
  match r with
  | Stopped result log => (result, log)
  | Passed context log =>
      ({| action := "continue"; reason := None;
          modified_context := Some (data context);
          result_metadata := Some (metadata context) |}, log)
  end.

Definition trigger (engine : HookEngine) (ev : string)
    (data0 : gmap string Any) (metadata0 : option (gmap string Any))
    : HookResult * list LogEntry :=
  if negb (enabled engine) then (continue_result, [])
  else
    let all_hooks := all_hooks_for engine ev in
    match all_hooks with
    | [] => (continue_result, [])
    | _ => finish (run_hooks (initial_context ev data0 metadata0) all_hooks)
    end.

(** A hook raises when reached with [context], leaving [context'] behind:
    in [should_run], or in [execute] after [should_run] said yes. *)
Definition raises_at (hook : Hook) (priority : Z)
    (context context' : HookContext) (entries : list LogEntry) : Prop :=
  (∃ e, should_run hook context = (context', Throws e)
        ∧ entries = [Errored (hook_name hook) e])
  ∨ (∃ c e, should_run hook context = (c, Returns true)
            ∧ execute hook c = (context', Throws e)
            ∧ entries = [Executing (hook_name hook) priority;
                         Errored (hook_name hook) e]).

(** A hook answers Block when reached with [context]. *)
Definition blocks_at (hook : Hook) (context context' : HookContext)
    (result : HookResult) : Prop :=
  ∃ c, should_run hook context = (c, Returns true)
       ∧ execute hook c = (context', Returns result)
       ∧ action result = "block".

(** [_count_hooks]: [sum(len(hooks) for hooks in self.hooks.values())] *)
Definition _count_hooks (engine : HookEngine) : nat :=
  map_fold (λ _ l n, length l + n) 0 (hooks engine).

(** [get_hooks_for_event]: the hooks of the event, then the wildcard
    hooks. *)
Definition get_hooks_for_event (engine : HookEngine) (ev : string) : list Hook :=
  (default [] (hooks engine !! ev)).*2 ++ (default [] (hooks engine !! "*")).*2.

Definition is_enabled (engine : HookEngine) : bool := enabled engine.

(** The log tells of a Block answer. *)
Definition is_blocked (entry : LogEntry) : Prop :=
  match entry with
  | Blocked _ _ => True
  | _ => False
  end.

(** The two ways [trigger] can answer, with the log it leaves: Continue,
    without a reason and with no Block in the log; or Block, with the reason
    of the one Block entry, which is the last of the log. *)
Definition answers (result : HookResult) (log : list LogEntry) : Prop :=
  (action result = "continue" ∧ reason result = None
   ∧ Forall (λ entry, ¬ is_blocked entry) log)
  ∨ (action result = "block" ∧ result_metadata result = None
     ∧ is_Some (modified_context result)
     ∧ ∃ log' name why,
         log = log' ++ [Blocked name why] ∧ reason result = Some why
         ∧ Forall (λ entry, ¬ is_blocked entry) log').

End Model.

(** *** Hooks used as test inputs *)

Definition always (name : string) (out : Outcome (@HookResult string))
    : @Hook string :=
  {| hook_name := name;
     should_run := λ c, (c, Returns true);
     execute := λ c, (c, out) |}.

Definition block_with (why : string) : @HookResult string :=
  {| action := "block"; reason := Some why;
     modified_context := None; result_metadata := None |}.

Definition engine_with (l : list (Z * @Hook string)) : @HookEngine string :=
  foldl (λ en ph, register en "E" ph.2 ph.1) {| hooks := ∅; enabled := true |} l.

Definition gate : @Hook string := always "gate" (Returns (block_with "no")).
Definition boom : @Hook string := always "boom" (Throws "failure").
Definition late : @Hook string := always "late" (Returns continue_result).

(** ["late"] is registered first, with priority 50; the other hook has
    priority 10. *)
Definition gate_engine : @HookEngine string := engine_with [(50, late); (10, gate)]%Z.
Definition boom_engine : @HookEngine string := engine_with [(50, late); (10, boom)]%Z.

End Hooks.

(** ** [orchestrator/core/orchestrator.py]: completion and execution *)

Module Orchestrator.
Import Tasks.

(** [for x in l: body(x)] *)
Fixpoint for_each {A} (l : list A) (body : A → M unit) : M unit :=
  match l with
  | [] => ret ()
  | x :: l' => body x;; for_each l' body
  end.

(** The loops that set a flag to [False] and [break] at the first id whose
    task is missing or not Completed. *)
Definition all_completed (ids : list string) : M bool :=
  λ tasks, Return (forallb (is_completed tasks) ids) tasks.

(** The body of the loop over [completed_task.blocks]. *)
Definition unblock_one (blocked_task_id : string) : M unit :=
  blocked_task ← get blocked_task_id;
  match blocked_task with
  | None => ret ()
  | Some blocked_task =>
      if decide (status blocked_task ≠ BLOCKED) then ret ()
      else
        all_deps_completed ← all_completed (depends_on blocked_task);
        if (all_deps_completed : bool)
        then update_task blocked_task_id [UStatus PENDING];; ret ()
        else ret ()
  end.

Definition _unblock_dependent_tasks (completed_task_id : string) : M unit :=
  completed_task ← get completed_task_id;
  match completed_task with
  | None => ret ()
  | Some completed_task => for_each (blocks completed_task) unblock_one
  end.

(** [f"All {n} subtasks completed successfully"] *)
Definition all_subtasks_result (n : nat) : string :=
  "All " +:+ pretty n +:+ " subtasks completed successfully".

(** [_check_parent_completion(parent_id)] with the depth of its recursion
    bounded by [fuel]; [None] is "out of fuel".  The [task.completed] hook
    fired between the update and the recursive call is taken not to touch
    the collection. *)
Fixpoint _check_parent_completion (fuel : nat) (parent_id : string)
    (tasks : TaskStore) : option (Res unit) :=
  match fuel with
  | 0 => None
  | S fuel' =>
      match get_task tasks parent_id with
      | None => Some (Return () tasks)
      | Some parent =>
          if decide (status parent ≠ IN_PROGRESS) then Some (Return () tasks)
          else
            let all_subtasks_completed :=
              forallb (is_completed tasks) (subtasks parent) in
            if all_subtasks_completed
               && negb (bool_decide (subtasks parent = []))
            then
              match update_task parent_id
                      [UStatus COMPLETED;
                       UResult (Some (all_subtasks_result
                                        (length (subtasks parent))))]
                      tasks with
              | Raise e tasks' => Some (Raise e tasks')
              | Return parent tasks' =>
                  match Tasks.parent_id parent with
                  | Some grandparent_id =>
                      if truthy grandparent_id
                      then _check_parent_completion fuel' grandparent_id tasks'
                      else Some (Return () tasks')
                  | None => Some (Return () tasks')
                  end
              end
            else Some (Return () tasks)
      end
  end.

(** Every recursive call follows the completion of an InProgress task, so
    the depth never exceeds the number of tasks plus one (lemma
    [_check_parent_completion_total]); the [None] branch is never taken. *)
Definition check_parent_completion (parent_id : string) : M unit :=
  λ tasks,
    match _check_parent_completion (S (length tasks)) parent_id tasks with
    | Some r => r
    | None => Return () tasks
    end.

Definition _handle_task_completion (completed_task_id : string) : M unit :=
  _unblock_dependent_tasks completed_task_id;;
  completed_task ← get completed_task_id;
  match completed_task with
  | Some completed_task =>
      match parent_id completed_task with
      | Some pid => if truthy pid then check_parent_completion pid else ret ()
      | None => ret ()
      end
  | None => ret ()
  end.

(** [try: m  except Exception as e: handler(e)] *)
Definition try_except {A} (m : M A) (handler : Exn → M A) : M A :=
  λ tasks,
    match m tasks with
    | Return a tasks' => Return a tasks'
    | Raise e tasks' => handler e tasks'
    end.

(** Step 2 of [_handle_interrupt]; the other steps (workspace save,
    subagent shutdown, interrupt hook, controller reset, display) do not
    write to the collection. *)
Definition _handle_interrupt (task_id : string) (partial_result : option string)
    : M unit :=
  try_except
    (update_task task_id
       [UStatus PENDING; UError (Some "Interrupted by user");
        UResult partial_result];; ret ())
    (λ _, ret ()).

(** How one run of [_reasoning_loop] ended, as decided by the provider, the
    tools and the interrupt controller: an end-turn with its text, one of
    the three interrupt checkpoints with the partial text it saved and the
    sentinel it returns, or an exception. *)
Inductive LoopOutcome :=
  | EndTurn (result : string)
  | Interrupted (partial_result : option string) (sentinel : string)
  | LoopError (exc : string).

Definition _reasoning_loop (task_id : string) (outcome : LoopOutcome) : M string :=
  match outcome with
  | EndTurn result => ret result
  | Interrupted partial_result sentinel =>
      _handle_interrupt task_id partial_result;; ret sentinel
  | LoopError exc => raise (RuntimeError exc)
  end.

(** [str(e)] *)
Definition exn_message (e : Exn) : string :=
  match e with
  | TaskNotFound k => "'Task not found: " +:+ k +:+ "'"
  | DependencyNotFound k => "'Dependency task not found: " +:+ k +:+ "'"
  | SelfDependency => "Task cannot depend on itself"
  | CycleDetected k d =>
      "Adding dependency " +:+ k +:+ " -> " +:+ d +:+ " would create a cycle"
  | MaxPendingReached => "Max pending tasks limit reached"
  | CycleInGraph => "Dependency cycle detected in task graph"
  | RuntimeError msg => msg
  end.

(** [_execute_task(task)]; [started_block] is the reason of a Block answer
    of the [task.started] hooks, [None] when they answer Continue. *)
Definition _execute_task (task_id : string) (started_block : option string)
    (outcome : LoopOutcome) : M unit :=
  try_except
    (update_task task_id [UStatus IN_PROGRESS];;
     match started_block with
     | Some why => raise (RuntimeError ("Task blocked by hook: " +:+ why))
     | None => ret ()
     end;;
     result ← _reasoning_loop task_id outcome;
     update_task task_id [UStatus COMPLETED; UResult (Some result)];;
     _handle_task_completion task_id)
    (λ e,
       update_task task_id [UStatus FAILED; UError (Some (exn_message e))];;
       raise e).

(** [_are_dependencies_met(task)]: the test [_execute_all_pending_tasks] and
    [_execute_subtasks_recursive] apply before they execute a task. *)
Definition _are_dependencies_met (task : Task) : M bool :=
  λ tasks,
    match depends_on task with
    | [] => Return true tasks
    | _ => Return (forallb (is_completed tasks) (depends_on task)) tasks
    end.

(** *** The result contract *)



(** What [_unblock_dependent_tasks] does to the task stored under [k], for
    a completed task whose [blocks] list is [dependents]. *)
Definition unblocked (tasks : TaskStore) (dependents : list string)
    (k : string) (t : Task) : Task :=
  if bool_decide (k ∈ dependents)
     && bool_decide (status t = BLOCKED)
     && forallb (is_completed tasks) (depends_on t)
  then set_status PENDING t else t.

(** The parent as [_check_parent_completion] leaves it when it
    auto-completes it. *)
Definition auto_completed (parent : Task) : Task :=
  set_result (Some (all_subtasks_result (length (subtasks parent))))
    (set_status COMPLETED parent).

(** Number of InProgress entries: what bounds the recursion of
    [_check_parent_completion]. *)
Definition in_progress_count (tasks : TaskStore) : nat :=
  length (filter (λ kt, status kt.2 = IN_PROGRESS) tasks).

(** *** Small collections used as test inputs *)

Definition make_task (i : string) (st : TaskStatus) (parent : option string)
    (subs deps blks : list string) : Task :=
  {| task_id := i; status := st; priority := MEDIUM; parent_id := parent;
     subtasks := subs; depends_on := deps; blocks := blks;
     result := None; error := None |}.

(** B is Completed and blocks A and C; A waits on B only, C also on the
    Pending D. *)
Definition dependents_store : TaskStore :=
  [("B", make_task "B" COMPLETED None [] [] ["A"; "C"]);
   ("A", make_task "A" BLOCKED None [] ["B"] []);
   ("C", make_task "C" BLOCKED None [] ["B"; "D"] []);
   ("D", make_task "D" PENDING None [] [] ["C"])].

(** G is the parent of P, P the parent of C1 and C2; both children are
    Completed, P and G are InProgress. *)
Definition family_P : Task :=
  make_task "P" IN_PROGRESS (Some "G") ["C1"; "C2"] [] [].

Definition family_store : TaskStore :=
  [("G", make_task "G" IN_PROGRESS None ["P"] [] []);
   ("P", family_P);
   ("C1", make_task "C1" COMPLETED (Some "P") [] [] []);
   ("C2", make_task "C2" COMPLETED (Some "P") [] [] [])].

Definition fresh_store : TaskStore := [("T", new_task "T")].

(** C is the only subtask of the InProgress P and is Completed; D waits on
    P. *)
Definition waiting_on_parent : TaskStore :=
  [("P", make_task "P" IN_PROGRESS None ["C"] [] ["D"]);
   ("C", make_task "C" COMPLETED (Some "P") [] [] []);
   ("D", make_task "D" BLOCKED None [] ["P"] [])].

End Orchestrator.

(** ** [orchestrator/tools/builtin/task_decompose.py]: the dependency
    operations *)

Module TaskDecompose.
Import Tasks Orchestrator.

(** [ToolResult]: a success with the entries of its [data], or a failure
    with its [error]. *)
Inductive ToolResult :=
  | ToolSuccess (data : list (string * string))
  | ToolFailure (error : string).

(** An optional [str] that passes [if x:]. *)
Definition nonempty (s : option string) : option string :=
  match s with
  | Some s => if truthy s then Some s else None
  | None => None
  end.

(** [task_id or (self.current_task.id if self.current_task else None)],
    as far as it passes [if not target_task_id]; [current_task] is the id of
    the task the tool was last handed. *)
Definition target_of (current_task task_id : option string) : option string :=
  match nonempty task_id with
  | Some i => Some i
  | None => nonempty current_task
  end.

Definition _add_dependency (config : Config)
    (current_task task_id depends_on_task_id : option string) : M ToolResult :=
  match nonempty depends_on_task_id with
  | None =>
      ret (ToolFailure "Parameter 'depends_on_task_id' is required for add_dependency")
  | Some depends_on_task_id =>
      match target_of current_task task_id with
      | None => ret (ToolFailure "No task_id provided and no current task context")
      | Some target_task_id =>
          add_dependency config target_task_id depends_on_task_id;;
          ret (ToolSuccess
                 [("task_id", target_task_id);
                  ("depends_on", depends_on_task_id);
                  ("message", "Task " +:+ target_task_id +:+ " now depends on "
                              +:+ depends_on_task_id)])
      end
  end.

Definition _remove_dependency
    (current_task task_id depends_on_task_id : option string) : M ToolResult :=
  match nonempty depends_on_task_id with
  | None =>
      ret (ToolFailure
             "Parameter 'depends_on_task_id' is required for remove_dependency")
  | Some depends_on_task_id =>
      match target_of current_task task_id with
      | None => ret (ToolFailure "No task_id provided and no current task context")
      | Some target_task_id =>
          remove_dependency target_task_id depends_on_task_id;;
          ret (ToolSuccess
                 [("task_id", target_task_id);
                  ("removed_dependency", depends_on_task_id);
                  ("message", "Removed dependency: " +:+ target_task_id
                              +:+ " no longer depends on " +:+ depends_on_task_id)])
      end
  end.

(** The two values of [operation] that edit dependencies. *)
Inductive DependencyOperation := ToolAddDependency | ToolRemoveDependency.

(** [execute(operation, task_id=..., depends_on_task_id=...)] for these two
    operations: the guard on the task manager, the dispatch, and the
    [except Exception as e] that turns an exception into a failure carrying
    [str(e)]. *)
Definition execute (config : Config) (has_task_manager : bool)
    (current_task : option string) (operation : DependencyOperation)
    (task_id depends_on_task_id : option string)
    (tasks : TaskStore) : ToolResult * TaskStore :=
  if negb has_task_manager then
    (ToolFailure
       "Task manager not initialized. This tool requires orchestrator context.",
     tasks)
  else
    match
      match operation with
      | ToolAddDependency =>
          _add_dependency config current_task task_id depends_on_task_id tasks
      | ToolRemoveDependency =>
          _remove_dependency current_task task_id depends_on_task_id tasks
      end
    with
    | Return r tasks' => (r, tasks')
    | Raise e tasks' => (ToolFailure (exn_message e), tasks')
    end.

(** The manager call an operation stands for. *)
Definition manager_call (config : Config) (operation : DependencyOperation)
    (target_task_id depends_on_task_id : string) : M unit :=
  match operation with
  | ToolAddDependency => add_dependency config target_task_id depends_on_task_id
  | ToolRemoveDependency => remove_dependency target_task_id depends_on_task_id
  end.

End TaskDecompose.

(** * Properties *)

(** ** Stable sorting and filtering *)

Section StableSortFacts.
Context {A : Type} (key : A → Z).


Lemma insert_by_Permutation x l : insert_by key x l ≡ₚ x :: l.
Proof.
  induction l as [|y l IH]; simpl; [done|].
  case_decide; [done|]. rewrite IH. apply Permutation_swap.
Qed.

Lemma sort_by_key_Permutation l : sort_by_key key l ≡ₚ l.
Proof.
  induction l as [|x l IH]; simpl; [done|].
  by rewrite insert_by_Permutation, IH.
Qed.

Lemma insert_by_Sorted x l :
  Sorted (λ a b, (key a ≤ key b)%Z) l →
  Sorted (λ a b, (key a ≤ key b)%Z) (insert_by key x l).
Proof.
  induction 1 as [|y l Hs IH Hhd]; simpl.
  - repeat constructor.
  - case_decide.
    + constructor; [by constructor|by constructor].
    + constructor; [done|].
      destruct l as [|z l]; simpl in *.
      * constructor; lia.
      * case_decide; constructor; [lia|]. by inversion Hhd.
Qed.

Lemma sort_by_key_Sorted l : Sorted (λ a b, (key a ≤ key b)%Z) (sort_by_key key l).
Proof. induction l; simpl; [constructor|by apply insert_by_Sorted]. Qed.

End StableSortFacts.



(** Filters that agree on the elements of a list select the same ones. *)
Lemma filter_ext_in {A} (P Q : A → Prop) `{∀ x, Decision (P x)}
    `{∀ x, Decision (Q x)} (l : list A) :
  (∀ x, x ∈ l → (P x ↔ Q x)) → filter P l = filter Q l.
Proof.
  induction l as [|x l IH]; intros Hext; [done|].
  rewrite !filter_cons. rewrite IH by (intros; apply Hext; by right).
  destruct (decide (P x)) as [HP|HP], (decide (Q x)) as [HQ|HQ]; try done.
  - destruct HQ. apply Hext; [by left|done].
  - destruct HP. apply Hext; [by left|done].
Qed.

(** ** The scheduler: [get_next_executable_task] *)

Section NextExecutable.
Import Tasks.

Lemma priority_order_chain :
  (priority_order CRITICAL < priority_order HIGH
   ∧ priority_order HIGH < priority_order MEDIUM
   ∧ priority_order MEDIUM < priority_order LOW)%Z.
Proof. simpl. lia. Qed.

Lemma is_completed_spec tasks k :
  is_completed tasks k = true ↔ CompletedIn tasks k.
Proof.
  unfold is_completed, CompletedIn. destruct (get_task tasks k) as [t|].
  - rewrite bool_decide_eq_true. split; [by exists t|by intros (? & [= <-] & ?)].
  - split; [done|by intros (? & [=] & _)].
Qed.

Lemma forallb_is_completed tasks l :
  forallb (is_completed tasks) l = true ↔ ∀ k, k ∈ l → CompletedIn tasks k.
Proof.
  induction l as [|x l IH]; simpl.
  - split; [|done]. intros _ k Hk. by apply not_elem_of_nil in Hk.
  - rewrite andb_true_iff, IH, is_completed_spec. set_solver.
Qed.

Lemma _is_task_executable_spec tasks t :
  _is_task_executable tasks t = true ↔
  (∀ d, d ∈ depends_on t → CompletedIn tasks d)
  ∧ (∀ c, c ∈ subtasks t → CompletedIn tasks c)
  ∧ (∀ pid, HasParent t pid →
       ∃ p, get_task tasks pid = Some p
            ∧ (status p = IN_PROGRESS ∨ status p = COMPLETED)).
Proof.
  unfold _is_task_executable, HasParent, truthy.
  rewrite <- !forallb_is_completed.
  destruct (forallb _ (depends_on t)); simpl; [|naive_solver].
  destruct (forallb _ (subtasks t)); simpl; [|naive_solver].
  destruct (parent_id t) as [pid|]; [|naive_solver].
  case_bool_decide as Hpid; simpl; [naive_solver|].
  destruct (get_task tasks pid) as [p|] eqn:Hp.
  - rewrite bool_decide_eq_true. split.
    + intros Hin. split_and!; [done..|]. intros ? [[= <-] _].
      exists p. split; [done|]. set_solver.
    + intros (_ & _ & Hpar). destruct (Hpar pid) as (p' & ? & Hst); [done|].
      simplify_eq. set_solver.
  - split; [done|]. intros (_ & _ & Hpar).
    destruct (Hpar pid) as (p' & ? & _); [done|congruence].
Qed.

Lemma executable_filter tasks t :
  t ∈ filter (λ t, _is_task_executable tasks t)
        (list_tasks tasks (Some PENDING) None) ↔
  t ∈ values tasks ∧ Executable tasks t.
Proof.
  unfold list_tasks, Executable. rewrite !list_elem_of_filter.
  rewrite Is_true_true, _is_task_executable_spec. naive_solver.
Qed.

(** The two early [return None] are what [executable_tasks[0]] of the
    sorted list gives on an empty list. *)
Lemma get_next_executable_task_head tasks :
  get_next_executable_task tasks =
  head (sort_by_key (λ t, priority_order (priority t))
          (filter (λ t, _is_task_executable tasks t)
             (list_tasks tasks (Some PENDING) None))).
Proof.
  unfold get_next_executable_task.
  destruct (list_tasks tasks (Some PENDING) None) as [|p0 pending]; [done|].
  by destruct (filter _ (p0 :: pending)).
Qed.


End NextExecutable.

(** ** The task collection as a dictionary *)

Section Store.
Import Tasks.
Implicit Types (tasks : TaskStore) (k : string) (t : Task).

Lemma get_set_eq tasks k t : get_task (set_task tasks k t) k = Some t.
Proof.
  induction tasks as [|[k' t'] tasks IH]; simpl.
  - by rewrite decide_True.
  - destruct (decide (k' = k)) as [->|Hne]; simpl.
    + by rewrite decide_True.
    + by rewrite decide_False.
Qed.

Lemma get_set_ne tasks k k' t :
  k ≠ k' → get_task (set_task tasks k t) k' = get_task tasks k'.
Proof.
  intros Hne. induction tasks as [|[k0 t0] tasks IH]; simpl.
  - by rewrite decide_False.
  - destruct (decide (k0 = k)) as [->|Hne0]; simpl.
    + by rewrite !decide_False.
    + by rewrite IH.
Qed.

Lemma get_set tasks k k' t :
  get_task (set_task tasks k t) k' =
  if decide (k = k') then Some t else get_task tasks k'.
Proof.
  case_decide as Hk; [subst; apply get_set_eq|by apply get_set_ne].
Qed.

Lemma set_task_same tasks k t : get_task tasks k = Some t → set_task tasks k t = tasks.
Proof.
  induction tasks as [|[k' t'] tasks IH]; simpl; [done|].
  case_decide; [by intros [= ->]; subst|]. intros Hg. by rewrite IH.
Qed.

Lemma get_task_keys tasks k : is_Some (get_task tasks k) ↔ k ∈ keys tasks.
Proof.
  unfold keys. induction tasks as [|[k' t'] tasks IH]; simpl.
  - split; [by intros [? [=]]|by intros ?%not_elem_of_nil].
  - case_decide as Hk; [subst|]; rewrite elem_of_cons.
    + split; [by left|by eexists].
    + rewrite IH. naive_solver.
Qed.

Lemma keys_set_task tasks k t :
  is_Some (get_task tasks k) → keys (set_task tasks k t) = keys tasks.
Proof.
  unfold keys. induction tasks as [|[k' t'] tasks IH]; cbn [set_task get_task].
  - by intros [? [=]].
  - case_decide as Hk; [by subst|]. intros Hs. rewrite !fmap_cons.
    f_equal. by apply IH.
Qed.

Lemma length_set_task tasks k t :
  is_Some (get_task tasks k) → length (set_task tasks k t) = length tasks.
Proof.
  induction tasks as [|[k' t'] tasks IH]; simpl.
  - by intros [? [=]].
  - case_decide as Hk; [done|]. intros Hs. simpl. by rewrite IH.
Qed.

Lemma set_task_fresh tasks k t :
  get_task tasks k = None → set_task tasks k t = tasks ++ [(k, t)].
Proof.
  induction tasks as [|[k' t'] tasks IH]; simpl; [done|].
  case_decide; [done|]. intros Hg. by rewrite IH.
Qed.

Lemma get_del_eq tasks k : get_task (del_task tasks k) k = None.
Proof.
  induction tasks as [|[k' t'] tasks IH]; simpl; [done|].
  case_decide as Hk; simpl; [done|]. by rewrite decide_False.
Qed.

Lemma get_del_ne tasks k k' :
  k ≠ k' → get_task (del_task tasks k) k' = get_task tasks k'.
Proof.
  intros Hne. induction tasks as [|[k0 t0] tasks IH]; simpl; [done|].
  destruct (decide (k0 = k)) as [->|Hne0]; simpl.
  - by rewrite decide_False.
  - by rewrite IH.
Qed.


End Store.

(** ** The cycle check terminates and finds direct reverse edges *)

Section CycleCheck.
Import Tasks.
Implicit Types (tasks : TaskStore) (visited : gset string).

Lemma unvisited_mono tasks visited visited' :
  visited ⊆ visited' → unvisited tasks visited' ≤ unvisited tasks visited.
Proof. intros Hsub. apply subseteq_size. set_solver. Qed.

Lemma unvisited_mark tasks visited k :
  k ∈ keys tasks → k ∉ visited →
  unvisited tasks ({[k]} ∪ visited) < unvisited tasks visited.
Proof.
  intros Hk Hv. apply subset_size. apply strict_spec_alt. split; [set_solver|].
  intros Heq. assert (k ∈ (list_to_set (keys tasks) : gset string) ∖ visited) as Hin
    by set_solver.
  rewrite <- Heq in Hin. set_solver.
Qed.

Lemma unvisited_bound tasks : unvisited tasks ∅ ≤ length tasks.
Proof.
  unfold unvisited, keys. rewrite difference_empty_L, <- (length_fmap fst tasks).
  induction (tasks.*1) as [|x l IH].
  - by rewrite list_to_set_nil, size_empty.
  - rewrite list_to_set_cons, size_union_alt, size_singleton. simpl.
    assert (size ((list_to_set l : gset string) ∖ {[x]})
            ≤ size (list_to_set l : gset string)) as Hle
      by (apply subseteq_size; set_solver).
    lia.
Qed.

(** With more fuel than unvisited keys the search returns, and it only ever
    adds to [visited]. *)
Lemma _has_cycle_dfs_total fuel tasks target :
  ∀ start visited,
    unvisited tasks visited < fuel →
    ∃ b visited',
      _has_cycle_dfs fuel tasks start target visited = Some (b, visited')
      ∧ visited ⊆ visited'.
Proof.
  induction fuel as [|fuel IH]; intros start visited Hlt; [lia|]. simpl.
  case_decide; [by eauto|]. case_decide; [by eauto|].
  destruct (get_task tasks start) as [task|] eqn:Hget;
    [|eexists _, _; split; [done|set_solver]].
  assert (unvisited tasks ({[start]} ∪ visited) < unvisited tasks visited) as Hm.
  { apply unvisited_mark; [|done]. apply get_task_keys. by eexists. }
  assert (∀ deps v, unvisited tasks v < fuel →
            ∃ b v', dfs_deps (λ d v, _has_cycle_dfs fuel tasks d target v) deps v
                    = Some (b, v') ∧ v ⊆ v') as Hloop.
  { induction deps as [|d deps IHdeps]; intros v Hv; simpl; [by eauto|].
    destruct (IH d v Hv) as (b & v' & -> & Hsub).
    destruct b; [by eauto|].
    destruct (IHdeps v') as (b' & v'' & -> & Hsub').
    - pose proof (unvisited_mono tasks _ _ Hsub). lia.
    - eexists _, _. split; [done|set_solver]. }
  destruct (Hloop (depends_on task) ({[start]} ∪ visited)) as (b & v' & -> & Hsub);
    [lia|].
  eexists _, _. split; [done|set_solver].
Qed.

(** A direct edge to [target] among [deps] is always found. *)
Lemma dfs_deps_hits fuel tasks target deps visited :
  target ∈ deps → unvisited tasks visited < fuel →
  ∃ visited',
    dfs_deps (λ d v, _has_cycle_dfs fuel tasks d target v) deps visited
    = Some (true, visited').
Proof.
  revert visited. induction deps as [|d deps IH]; intros visited Hin Hlt.
  { by apply not_elem_of_nil in Hin. }
  simpl. destruct (decide (d = target)) as [->|Hne].
  - destruct fuel as [|fuel]; [lia|]. simpl. rewrite decide_True by done. eauto.
  - destruct (_has_cycle_dfs_total fuel tasks target d visited Hlt)
      as (b & v' & -> & Hsub).
    destruct b; [by eauto|]. apply IH; [set_solver|].
    pose proof (unvisited_mono tasks _ _ Hsub). lia.
Qed.

Lemma _has_dependency_cycle_direct tasks task_id dep_id t :
  get_task tasks dep_id = Some t → task_id ∈ depends_on t →
  _has_dependency_cycle tasks task_id dep_id = true.
Proof.
  intros Hget Hin. unfold _has_dependency_cycle. simpl.
  case_decide; [done|]. rewrite decide_False by set_solver. rewrite Hget.
  destruct (dfs_deps_hits (length tasks) tasks task_id (depends_on t)
              ({[dep_id]} ∪ ∅) Hin) as (v' & ->); [|done].
  pose proof (unvisited_bound tasks).
  assert (unvisited tasks ({[dep_id]} ∪ ∅) < unvisited tasks ∅); [|lia].
  apply unvisited_mark; [|set_solver]. apply get_task_keys. by eexists.
Qed.

(** The search never reads the edges of [target]: two collections that
    differ only there are searched alike. *)
Lemma dfs_deps_ext rec1 rec2 deps visited :
  (∀ d v, rec1 d v = rec2 d v) →
  dfs_deps rec1 deps visited = dfs_deps rec2 deps visited.
Proof.
  intros Hext. revert visited. induction deps as [|d deps IH]; intros v; simpl; [done|].
  rewrite Hext. destruct (rec2 d v) as [[[] ?]|]; auto.
Qed.

Lemma _has_cycle_dfs_agree fuel tasks1 tasks2 target :
  (∀ k, k ≠ target →
        depends_on <$> get_task tasks1 k = depends_on <$> get_task tasks2 k) →
  ∀ start visited,
    _has_cycle_dfs fuel tasks1 start target visited
    = _has_cycle_dfs fuel tasks2 start target visited.
Proof.
  intros Hag. induction fuel as [|fuel IH]; intros start visited; simpl; [done|].
  case_decide as Hst; [done|]. case_decide; [done|].
  specialize (Hag start Hst).
  destruct (get_task tasks1 start) as [t1|], (get_task tasks2 start) as [t2|];
    simplify_eq/=; [|done].
  rewrite Hag. by apply dfs_deps_ext.
Qed.


End CycleCheck.

(** ** Dependency edges: [add_dependency] and [remove_dependency] *)

Section Dependencies.
Import Tasks.
Implicit Types (tasks : TaskStore) (config : Config).

Ltac run_manager :=
  unfold add_dependency, remove_dependency, has_dependency_cycle, when,
    mbind, M_bind, bind, mret, M_ret, ret, get, mutate, raise; cbn beta iota.

(** What a successful [add_dependency(a, b)] did. *)
Lemma add_dependency_Return config a b tasks tasks' :
  add_dependency config a b tasks = Return () tasks' →
  ∃ ta tb,
    get_task tasks a = Some ta ∧ get_task tasks b = Some tb ∧ a ≠ b
    ∧ _has_dependency_cycle tasks a b = false
    ∧ get_task tasks' a =
        Some (set_status
                (if auto_block_on_dependency config
                    && bool_decide (status tb ≠ COMPLETED)
                    && bool_decide (status ta = PENDING)
                 then BLOCKED else status ta)
                (set_depends_on (append_once b (depends_on ta)) ta))
    ∧ get_task tasks' b = Some (set_blocks (append_once a (blocks tb)) tb)
    ∧ (∀ k, k ≠ a → k ≠ b → get_task tasks' k = get_task tasks k)
    ∧ length tasks' = length tasks.
Proof.
  run_manager.
  destruct (get_task tasks a) as [ta|] eqn:Ha; [|by destruct (get_task tasks b)].
  destruct (get_task tasks b) as [tb|] eqn:Hb; [|done].
  case_decide as Hab; [done|].
  destruct (_has_dependency_cycle tasks a b) eqn:Hcyc; [done|].
  rewrite Ha. cbn beta iota. rewrite get_set_ne, Hb by done. cbn beta iota.
  rewrite get_set_ne, get_set_eq by done. rewrite get_set_eq.
  set (ta1 := set_depends_on (append_once b (depends_on ta)) ta).
  set (tb1 := set_blocks (append_once a (blocks tb)) tb).
  change (status tb1) with (status tb). change (status ta1) with (status ta).
  destruct (_ && _ && _) eqn:Hblock.
  - rewrite get_set_ne, get_set_eq by done. intros [= <-].
    exists ta, tb. rewrite Hblock. split_and!; try done.
    + by rewrite get_set_eq.
    + by rewrite get_set_ne, get_set_eq.
    + intros k ? ?. by rewrite !get_set_ne.
    + rewrite !length_set_task; [done|by rewrite Ha|..].
      * rewrite get_set_ne, Hb by done. done.
      * rewrite get_set_ne, get_set_eq by done. done.
  - intros [= <-]. exists ta, tb. rewrite Hblock. split_and!; try done.
    + rewrite get_set_ne, get_set_eq by done. by destruct ta.
    + by rewrite get_set_eq.
    + intros k ? ?. by rewrite !get_set_ne.
    + rewrite !length_set_task; [done|by rewrite Ha|..].
      rewrite get_set_ne, Hb by done. done.
Qed.

(** A call that raises has not touched the collection. *)
Lemma add_dependency_Raise config a b tasks e tasks' :
  add_dependency config a b tasks = Raise e tasks' → tasks' = tasks.
Proof.
  run_manager.
  destruct (get_task tasks a) as [ta|] eqn:Ha;
    [|by destruct (get_task tasks b); intros [= _ <-]].
  destruct (get_task tasks b) as [tb|] eqn:Hb; [|by intros [= _ <-]].
  case_decide as Hab; [by intros [= _ <-]|].
  destruct (_has_dependency_cycle tasks a b) eqn:Hcyc; [by intros [= _ <-]|].
  rewrite Ha. cbn beta iota. rewrite get_set_ne, Hb by done. cbn beta iota.
  rewrite get_set_ne, get_set_eq by done. rewrite get_set_eq.
  destruct (_ && _ && _); [|done].
  by rewrite get_set_ne, get_set_eq.
Qed.

Lemma append_once_elem x l : x ∈ append_once x l.
Proof. unfold append_once. case_decide; set_solver. Qed.

Lemma append_once_elem_of x y l : y ∈ append_once x l ↔ y = x ∨ y ∈ l.
Proof. unfold append_once. case_decide; set_solver. Qed.

Lemma append_once_NoDup x l : NoDup l → NoDup (append_once x l).
Proof.
  unfold append_once. case_decide; [done|]. intros Hnd.
  apply NoDup_app. split_and!; [done|set_solver|apply NoDup_singleton].
Qed.

Lemma append_once_id x l : x ∈ l → append_once x l = l.
Proof. unfold append_once. by case_decide. Qed.

(** C2.  After a successful [add_dependency(a, b)], [add_dependency(b, a)]
    raises the cycle error, and the collection it leaves is the very
    collection it was called on: no [depends_on] or [blocks] list of any
    task has changed. *)
Theorem add_dependency_reverse_raises_cycle config a b tasks tasks1 :
  add_dependency config a b tasks = Return () tasks1 →
  add_dependency config b a tasks1 = Raise (CycleDetected b a) tasks1.
Proof.
  intros (ta & tb & Ha & Hb & Hab & _ & Ha1 & Hb1 & _)%add_dependency_Return.
  run_manager. rewrite Hb1, Ha1. rewrite decide_False by done.
  erewrite _has_dependency_cycle_direct; [done|exact Ha1|].
  simpl. apply append_once_elem.
Qed.

(** C10.  Repeating a successful [add_dependency(a, b)] succeeds again and
    leaves the collection as it is: [a.depends_on], [b.blocks] and every
    status are unchanged, so no edge is listed a second time.  The first call
    itself keeps duplicate-free edge lists duplicate-free. *)
Theorem add_dependency_idempotent config a b tasks tasks1 :
  add_dependency config a b tasks = Return () tasks1 →
  add_dependency config a b tasks1 = Return () tasks1
  ∧ (∀ ta ta1, get_task tasks a = Some ta → get_task tasks1 a = Some ta1 →
       NoDup (depends_on ta) → NoDup (depends_on ta1))
  ∧ (∀ tb tb1, get_task tasks b = Some tb → get_task tasks1 b = Some tb1 →
       NoDup (blocks tb) → NoDup (blocks tb1)).
Proof.
  intros (ta & tb & Ha & Hb & Hab & Hcyc & Ha1 & Hb1 & Hother & Hlen)
    %add_dependency_Return.
  split_and!.
  - run_manager. rewrite Ha1, Hb1. rewrite decide_False by done.
    assert (_has_dependency_cycle tasks1 a b = false) as ->.
    { rewrite <- Hcyc. unfold _has_dependency_cycle. rewrite Hlen.
      erewrite _has_cycle_dfs_agree; [done|]. intros k Hk.
      destruct (decide (k = b)) as [->|Hkb].
      - by rewrite Hb1, Hb.
      - by rewrite Hother. }
    rewrite Ha1. cbn beta iota.
    rewrite set_task_same.
    2:{ rewrite Ha1. f_equal. simpl.
        by rewrite (append_once_id b (append_once b _)) by apply append_once_elem. }
    rewrite Hb1. cbn beta iota.
    rewrite set_task_same.
    2:{ rewrite Hb1. f_equal. simpl.
        by rewrite (append_once_id a (append_once a _)) by apply append_once_elem. }
    rewrite Ha1, Hb1. simpl.
    destruct (auto_block_on_dependency config); simpl; [|done].
    case_bool_decide; simpl; [|done].
    destruct (bool_decide (status ta = PENDING)) eqn:Hp; [done|].
    by rewrite Hp.
  - intros ? ? ? ? Hnd. simplify_eq. simpl. by apply append_once_NoDup.
  - intros ? ? ? ? Hnd. simplify_eq. simpl. by apply append_once_NoDup.
Qed.

Lemma remove_first_elem_of x y l :
  NoDup l → y ∈ remove_first x l ↔ y ∈ l ∧ y ≠ x.
Proof.
  induction l as [|z l IH]; simpl; [set_solver|].
  rewrite NoDup_cons. intros [Hz Hnd]. case_decide; set_solver.
Qed.


(** The edge lists after [add_dependency], whatever its outcome. *)
Lemma add_dependency_edges config a b tasks :
  let tasks' := final_store (add_dependency config a b tasks) in
  tasks' = tasks
  ∨ (a ≠ b
     ∧ (∀ k, deps_at tasks' k =
             (λ l, if decide (k = a) then append_once b l else l)
               <$> deps_at tasks k)
     ∧ (∀ k, blocks_at tasks' k =
             (λ l, if decide (k = b) then append_once a l else l)
               <$> blocks_at tasks k)).
Proof.
  simpl. destruct (add_dependency config a b tasks) as [[] tasks'|e tasks'] eqn:Hrun.
  - right. apply add_dependency_Return in Hrun
      as (ta & tb & Ha & Hb & Hab & _ & Ha1 & Hb1 & Hother & _).
    simpl. unfold deps_at, blocks_at. split_and!; [done|..]; intros k.
    + destruct (decide (k = a)) as [->|Hka]; [by rewrite Ha1, Ha|].
      destruct (decide (k = b)) as [->|Hkb]; [by rewrite Hb1, Hb|].
      rewrite Hother by done. by destruct (get_task tasks k).
    + destruct (decide (k = b)) as [->|Hkb]; [by rewrite Hb1, Hb|].
      destruct (decide (k = a)) as [->|Hka]; [by rewrite Ha1, Ha|].
      rewrite Hother by done. by destruct (get_task tasks k).
  - left. simpl. by eapply add_dependency_Raise.
Qed.


Lemma EdgesInverse_alt tasks :
  EdgesInverse tasks ↔
  ∀ x y dx bl, deps_at tasks x = Some dx → blocks_at tasks y = Some bl →
               (y ∈ dx ↔ x ∈ bl).
Proof.
  unfold EdgesInverse, deps_at, blocks_at. split.
  - intros Hinv x y dx bl Hx Hy.
    destruct (get_task tasks x) as [tx|] eqn:Hgx; [|done].
    destruct (get_task tasks y) as [ty|] eqn:Hgy; [|done].
    simplify_eq/=. by eapply Hinv.
  - intros Hinv x y tx ty Hx Hy. apply Hinv; by rewrite ?Hx, ?Hy.
Qed.

Lemma EdgesNoDup_alt tasks :
  EdgesNoDup tasks ↔
  (∀ k l, deps_at tasks k = Some l → NoDup l)
  ∧ (∀ k l, blocks_at tasks k = Some l → NoDup l).
Proof.
  unfold EdgesNoDup, deps_at, blocks_at. split.
  - intros Hnd. split; intros k l Hk;
      destruct (get_task tasks k) as [t|] eqn:Hg; simplify_eq/=;
      by destruct (Hnd k t Hg).
  - intros [Hd Hb] k t Hk. split; [eapply Hd|eapply Hb]; by rewrite Hk.
Qed.

(** Well-formedness carries over to a collection whose edge lists are
    obtained key by key through [fd] and [fb]. *)
Lemma WellFormed_transform tasks tasks' (fd fb : string → list string → list string) :
  (∀ k, deps_at tasks' k = fd k <$> deps_at tasks k) →
  (∀ k, blocks_at tasks' k = fb k <$> blocks_at tasks k) →
  (∀ k l, NoDup l → NoDup (fd k l) ∧ NoDup (fb k l)) →
  (∀ x y dx bl, NoDup dx → NoDup bl →
                (y ∈ dx ↔ x ∈ bl) → (y ∈ fd x dx ↔ x ∈ fb y bl)) →
  WellFormed tasks → WellFormed tasks'.
Proof.
  intros Hd Hb Hnd Hiff [Hinv [Hdn Hbn]%EdgesNoDup_alt].
  rewrite EdgesInverse_alt in Hinv. split.
  - apply EdgesInverse_alt. intros x y dx bl. rewrite Hd, Hb.
    destruct (deps_at tasks x) as [dx0|] eqn:Hx; [|done].
    destruct (blocks_at tasks y) as [bl0|] eqn:Hy; [|done].
    intros [= <-] [= <-]. apply Hiff; eauto.
  - apply EdgesNoDup_alt. split; intros k l; rewrite ?Hd, ?Hb.
    + destruct (deps_at tasks k) as [l0|] eqn:Hk; [|done].
      intros [= <-]. eapply Hnd; eauto.
    + destruct (blocks_at tasks k) as [l0|] eqn:Hk; [|done].
      intros [= <-]. eapply Hnd; eauto.
Qed.

Lemma add_dependency_WellFormed config a b tasks :
  WellFormed tasks → WellFormed (final_store (add_dependency config a b tasks)).
Proof.
  destruct (add_dependency_edges config a b tasks) as [->|(Hab & Hd & Hb)]; [done|].
  eapply WellFormed_transform; [exact Hd|exact Hb|..]; clear Hd Hb.
  - intros k l Hl. split; case_decide; auto using append_once_NoDup.
  - intros x y dx bl _ _ Hiff. cbn beta. repeat case_decide; subst;
      rewrite ?append_once_elem_of; naive_solver.
Qed.









Example add_dependency_blocks_dependent :
  add_dependency default_config "A" "B" two_tasks = Return () two_tasks_linked
  ∧ status <$> get_task two_tasks_linked "A" = Some BLOCKED
  ∧ get_next_executable_task two_tasks_linked = Some (set_blocks ["A"] (new_task "B")).
Proof. by vm_compute. Qed.

Lemma add_dependency_reverse_raises_cycle_witness :
  add_dependency default_config "B" "A" two_tasks_linked
  = Raise (CycleDetected "B" "A") two_tasks_linked.
Proof.
  apply (add_dependency_reverse_raises_cycle default_config "A" "B" two_tasks).
  vm_compute. reflexivity.
Defined.

Lemma add_dependency_idempotent_witness :
  add_dependency default_config "A" "B" two_tasks_linked
  = Return () two_tasks_linked.
Proof.
  apply (add_dependency_idempotent default_config "A" "B" two_tasks).
  vm_compute. reflexivity.
Defined.



End Dependencies.

(** ** The interrupt controller *)

Section InterruptFacts.
Import Interrupt.

(** A request escalates exactly when it takes the count past the limit. *)
Lemma request_interrupt_type c ty rs msg now :
  current_type (request_interrupt c ty rs msg now) =
  if bool_decide (_soft_interrupt_limit c < _interrupt_count c + 1)%Z
  then HARD else ty.
Proof. done. Qed.

Lemma request_interrupt_count c ty rs msg now :
  interrupt_count (request_interrupt c ty rs msg now) = (_interrupt_count c + 1)%Z.
Proof. done. Qed.

(** C7.  With [soft_interrupt_limit = 2] and starting from the reset
    state, two Soft requests leave the type Soft and the count 2; a third
    request of any type makes the type Hard and the count 3; [reset] then
    gives count 0 and type None. *)
Theorem interrupt_escalation_limit_2 (c : InterruptController)
    (rs1 rs2 rs3 : InterruptReason) (m1 m2 m3 : option string)
    (t1 t2 t3 : Z) (ty3 : InterruptType) :
  _soft_interrupt_limit c = 2%Z →
  let c0 := reset c in
  let c2 := request_interrupt (request_interrupt c0 SOFT rs1 m1 t1) SOFT rs2 m2 t2 in
  let c3 := request_interrupt c2 ty3 rs3 m3 t3 in
  (current_type c2 = SOFT ∧ interrupt_count c2 = 2%Z)
  ∧ (current_type c3 = HARD ∧ interrupt_count c3 = 3%Z)
  ∧ (current_type (reset c3) = NONE ∧ interrupt_count (reset c3) = 0%Z
     ∧ check_interrupt (reset c3) = None).
Proof.
  intros Hlimit. unfold current_type, interrupt_count. simpl. rewrite Hlimit.
  by split_and!.
Qed.

Lemma interrupt_escalation_limit_2_witness :
  let c2 := request_interrupt
              (request_interrupt (reset (init 2)) SOFT USER_REQUEST None 10)
              SOFT USER_REQUEST None 11 in
  let c3 := request_interrupt c2 SOFT USER_REQUEST None 12 in
  (current_type c2 = SOFT ∧ interrupt_count c2 = 2%Z)
  ∧ (current_type c3 = HARD ∧ interrupt_count c3 = 3%Z)
  ∧ (current_type (reset c3) = NONE ∧ interrupt_count (reset c3) = 0%Z
     ∧ check_interrupt (reset c3) = None).
Proof.
  apply (interrupt_escalation_limit_2 (init 2)). reflexivity.
Defined.

Example escalation_message :
  message (_state (request_interrupt
                     (request_interrupt
                        (request_interrupt (init 2) SOFT USER_REQUEST None 1)
                        SOFT USER_REQUEST None 2)
                     SOFT USER_REQUEST (Some "again") 3))
  = Some "Escalated to HARD interrupt after 3 requests".
Proof. by vm_compute. Qed.

End InterruptFacts.

(** ** The hook chain *)

Section HookFacts.
Import Hooks.
Context {Any : Type}.
Implicit Types (context : @HookContext Any) (hook : @Hook Any)
  (r : @LoopResult Any) (engine : @HookEngine Any).

Lemma logged_nil r : logged [] r = r.
Proof. by destruct r. Qed.

Lemma logged_logged e1 e2 r : logged e1 (logged e2 r) = logged (e1 ++ e2) r.
Proof. destruct r; simpl; by rewrite app_assoc. Qed.

(** Running a chain is running its first part and, unless that stopped,
    the rest from the context the first part left. *)
Lemma run_hooks_app context (l1 l2 : list (Z * @Hook Any)) :
  run_hooks context (l1 ++ l2) =
  match run_hooks context l1 with
  | Stopped result log => Stopped result log
  | Passed context' log => logged log (run_hooks context' l2)
  end.
Proof.
  revert context. induction l1 as [|[p h] l1 IH]; intros context; simpl.
  - by rewrite logged_nil.
  - destruct (should_run h context) as [c [[]|e]].
    + destruct (execute h c) as [c' [res|e]].
      * case_decide; [done|]. rewrite IH.
        destruct (run_hooks _ l1); simpl; [done|]. by rewrite logged_logged.
      * rewrite IH. destruct (run_hooks _ l1); simpl; [done|].
        by rewrite logged_logged.
    + rewrite IH. destruct (run_hooks _ l1); simpl; [done|].
      by rewrite logged_logged.
    + rewrite IH. destruct (run_hooks _ l1); simpl; [done|].
      by rewrite logged_logged.
Qed.

Lemma all_hooks_for_Sorted engine ev :
  Sorted (λ a b, (a.1 ≤ b.1)%Z) (all_hooks_for engine ev).
Proof. apply (sort_by_key_Sorted fst). Qed.

Lemma all_hooks_for_Permutation engine ev :
  all_hooks_for engine ev
  ≡ₚ default [] (hooks engine !! ev) ++ default [] (hooks engine !! "*").
Proof. apply sort_by_key_Permutation. Qed.

(** C8.  With the hook system enabled, [trigger] runs the hooks of the
    event and the wildcard hooks in ascending priority order.  When the
    hooks before some hook all let the chain pass and that hook answers
    Block, [trigger] returns Block with that hook's reason (the default text
    when it gave none) and its log ends with that hook: nothing of the rest
    of the chain is reached.  When instead that hook raises, the exception
    is logged and the rest of the chain runs from the context the hook left,
    as after a Continue; [trigger] returns its result either way. *)
Theorem trigger_block_and_error engine ev data0 metadata0 :
  enabled engine = true →
  let all_hooks := all_hooks_for engine ev in
  let context0 := initial_context ev data0 metadata0 in
  (Sorted (λ a b, (a.1 ≤ b.1)%Z) all_hooks
   ∧ all_hooks ≡ₚ default [] (hooks engine !! ev)
                  ++ default [] (hooks engine !! "*"))
  ∧ (∀ before priority hook after context log context' result,
       all_hooks = before ++ (priority, hook) :: after →
       run_hooks context0 before = Passed context log →
       blocks_at hook context context' result →
       trigger engine ev data0 metadata0 =
       ({| action := "block"; reason := Some (block_reason result);
           modified_context := Some (data (fold_result context' result));
           result_metadata := None |},
        log ++ [Executing (hook_name hook) priority;
                Blocked (hook_name hook) (block_reason result)]))
  ∧ (∀ before priority hook after context log context' entries,
       all_hooks = before ++ (priority, hook) :: after →
       run_hooks context0 before = Passed context log →
       raises_at hook priority context context' entries →
       trigger engine ev data0 metadata0 =
       finish (logged (log ++ entries) (run_hooks context' after))).
Proof.
  intros Hen all_hooks context0. split_and!.
  - apply all_hooks_for_Sorted.
  - apply all_hooks_for_Permutation.
  - intros before p h after c log c' res Hall Hpre (c1 & Hsr & Hex & Hact).
    unfold trigger. rewrite Hen. simpl. fold all_hooks. rewrite Hall.
    destruct (before ++ (p, h) :: after) eqn:Hnil; [by destruct before|].
    rewrite <- Hnil. fold context0. rewrite run_hooks_app, Hpre. simpl.
    rewrite Hsr, Hex. by rewrite decide_True.
  - intros before p h after c log c' entries Hall Hpre Hraise.
    unfold trigger. rewrite Hen. simpl. fold all_hooks. rewrite Hall.
    destruct (before ++ (p, h) :: after) eqn:Hnil; [by destruct before|].
    rewrite <- Hnil. fold context0. rewrite run_hooks_app, Hpre. simpl.
    destruct Hraise as [(e & Hsr & ->)|(c1 & e & Hsr & Hex & ->)].
    + rewrite Hsr. by rewrite logged_logged.
    + rewrite Hsr, Hex. by rewrite logged_logged.
Qed.

End HookFacts.

Section HookExamples.
Import Hooks.

Lemma trigger_block_and_error_witness :
  trigger gate_engine "E" ∅ None =
  ({| action := "block"; reason := Some "no";
      modified_context := Some ∅; result_metadata := None |},
   [Executing "gate" 10; Blocked "gate" "no"]).
Proof.
  pose proof (trigger_block_and_error gate_engine "E" ∅ None eq_refl)
    as (_ & Hblock & _).
  apply (Hblock [] 10%Z gate [(50%Z, late)]
           (initial_context "E" ∅ None) [] (initial_context "E" ∅ None)
           (block_with "no")).
  - vm_compute. reflexivity.
  - reflexivity.
  - exists (initial_context "E" ∅ None). split_and!; reflexivity.
Defined.

(** A priority-10 hook that raises does not keep the priority-50 hook from
    running, and [trigger] answers Continue. *)
Example trigger_after_raising_hook :
  trigger boom_engine "E" ∅ None =
  ({| action := "continue"; reason := None;
      modified_context := Some ∅; result_metadata := Some ∅ |},
   [Executing "boom" 10; Errored "boom" "failure"; Executing "late" 50]).
Proof. vm_compute. reflexivity. Qed.

(** A disabled engine reaches no hook at all. *)
Example trigger_disabled :
  trigger {| hooks := hooks gate_engine; enabled := false |} "E" ∅ None
  = (continue_result, []).
Proof. reflexivity. Qed.

End HookExamples.

(** ** Completion propagation: unblocking dependents *)

Section Unblock.
Import Tasks Orchestrator.
Implicit Types (tasks s : TaskStore) (k : string) (t : Task).

Ltac run_orchestrator :=
  unfold _unblock_dependent_tasks, unblock_one, all_completed, update_task,
    mbind, M_bind, bind, mret, M_ret, ret, get, raise; cbn beta iota.

Lemma unblocked_nil tasks k t : unblocked tasks [] k t = t.
Proof.
  unfold unblocked. rewrite bool_decide_eq_false_2; [done|apply not_elem_of_nil].
Qed.

Lemma unblocked_status_completed tasks l k t :
  status (unblocked tasks l k t) = COMPLETED ↔ status t = COMPLETED.
Proof.
  unfold unblocked. destruct (bool_decide (k ∈ l)); simpl; [|done].
  case_bool_decide as Hst; simpl; [|done].
  destruct (forallb _ _); simpl; [|done]. rewrite Hst. naive_solver.
Qed.

Lemma unblocked_ext tasks tasks' l k t :
  (∀ d, is_completed tasks d = is_completed tasks' d) →
  unblocked tasks l k t = unblocked tasks' l k t.
Proof.
  intros Hext. unfold unblocked.
  assert (∀ ds, forallb (is_completed tasks) ds = forallb (is_completed tasks') ds)
    as ->; [|done].
  induction ds as [|d ds IH]; simpl; [done|]. by rewrite Hext, IH.
Qed.

(** Unblocking over [x :: l] is unblocking for [x], then over [l]: a task
    unblocked once is Pending and is not touched again. *)
Lemma unblocked_cons tasks x l k t :
  unblocked tasks l k (unblocked tasks [x] k t) = unblocked tasks (x :: l) k t.
Proof.
  unfold unblocked. destruct (decide (k = x)) as [->|Hne].
  - rewrite (bool_decide_eq_true_2 (x ∈ [x])) by set_solver.
    rewrite (bool_decide_eq_true_2 (x ∈ x :: l)) by set_solver.
    destruct (bool_decide (status t = BLOCKED)) eqn:Hb;
      destruct (forallb (is_completed tasks) (depends_on t)) eqn:Ha; simpl;
      rewrite ?Hb, ?Ha, ?andb_false_r; done.
  - rewrite (bool_decide_eq_false_2 (k ∈ [x])) by set_solver. simpl.
    by rewrite (bool_decide_ext (k ∈ x :: l) (k ∈ l)) by set_solver.
Qed.

Lemma is_completed_fmap tasks s (f : string → Task → Task) :
  (∀ k, get_task s k = f k <$> get_task tasks k) →
  (∀ k t, status (f k t) = COMPLETED ↔ status t = COMPLETED) →
  ∀ d, is_completed s d = is_completed tasks d.
Proof.
  intros Hget Hst d. unfold is_completed. rewrite Hget.
  destruct (get_task tasks d) as [t|]; simpl; [|done].
  apply bool_decide_ext, Hst.
Qed.

(** One turn of the loop over [completed_task.blocks]. *)
Lemma unblock_step x s :
  ∃ s1, unblock_one x s = Return () s1
        ∧ ∀ k, get_task s1 k = unblocked s [x] k <$> get_task s k.
Proof.
  run_orchestrator.
  assert (∀ k, get_task s k = unblocked s [] k <$> get_task s k) as Hid.
  { intros k. destruct (get_task s k); simpl; [|done]. by rewrite unblocked_nil. }
  assert (∀ k t, get_task s k = Some t →
                 unblocked s [x] k t = t →
                 Some t = unblocked s [x] k <$> get_task s k) as Hsame.
  { intros k t -> Hu. simpl. by rewrite Hu. }
  destruct (get_task s x) as [bt|] eqn:Hx.
  - case_decide as Hst.
    + exists s. split; [done|]. intros k. destruct (get_task s k) as [t|] eqn:Hk; [|done].
      simpl. f_equal. unfold unblocked.
      destruct (decide (k = x)) as [->|Hne].
      * simplify_eq. rewrite (bool_decide_eq_false_2 (status _ = _)) by done.
        by rewrite andb_false_r.
      * by rewrite bool_decide_eq_false_2 by set_solver.
    + destruct (forallb (is_completed s) (depends_on bt)) eqn:Hall.
      * rewrite Hx. simpl. eexists. split; [done|]. intros k. rewrite get_set.
        case_decide as Hk.
        -- subst. rewrite Hx. simpl. f_equal. unfold unblocked.
           rewrite !bool_decide_eq_true_2 by (done || set_solver). by rewrite Hall.
        -- destruct (get_task s k) as [t|] eqn:Hgk; [|done]. simpl. f_equal.
           unfold unblocked. by rewrite bool_decide_eq_false_2 by set_solver.
      * exists s. split; [done|]. intros k.
        destruct (get_task s k) as [t|] eqn:Hk; [|done]. simpl. f_equal.
        unfold unblocked. destruct (decide (k = x)) as [->|Hne].
        -- simplify_eq. rewrite Hall. by rewrite andb_false_r.
        -- by rewrite bool_decide_eq_false_2 by set_solver.
  - exists s. split; [done|]. intros k.
    destruct (get_task s k) as [t|] eqn:Hk; [|done]. simpl. f_equal.
    unfold unblocked. rewrite bool_decide_eq_false_2; [done|].
    intros ->%list_elem_of_singleton. congruence.
Qed.

Lemma unblock_loop tasks l :
  ∀ s, (∀ d, is_completed s d = is_completed tasks d) →
       ∃ s', for_each l unblock_one s = Return () s'
             ∧ ∀ k, get_task s' k = unblocked tasks l k <$> get_task s k.
Proof.
  induction l as [|x l IH]; intros s Hs; simpl.
  - exists s. split; [done|]. intros k. destruct (get_task s k); simpl; [|done].
    by rewrite unblocked_nil.
  - destruct (unblock_step x s) as (s1 & Hrun & Hs1).
    unfold mbind, M_bind, bind. rewrite Hrun.
    destruct (IH s1) as (s' & Hrun' & Hs').
    { intros d. rewrite <- Hs. eapply is_completed_fmap; [exact Hs1|].
      intros. apply unblocked_status_completed. }
    exists s'. split; [done|]. intros k. rewrite Hs', Hs1.
    destruct (get_task s k) as [t|]; simpl; [|done]. f_equal.
    rewrite (unblocked_ext s tasks [x]) by done. apply unblocked_cons.
Qed.

(** [_unblock_dependent_tasks] returns, and maps [unblocked] over the
    collection. *)
Lemma _unblock_dependent_tasks_run cid tasks :
  ∃ tasks',
    _unblock_dependent_tasks cid tasks = Return () tasks'
    ∧ ∀ k, get_task tasks' k =
           unblocked tasks (default [] (blocks <$> get_task tasks cid)) k
             <$> get_task tasks k.
Proof.
  unfold _unblock_dependent_tasks, mbind, M_bind, bind, get.
  destruct (get_task tasks cid) as [ct|] eqn:Hc; simpl.
  - by apply unblock_loop.
  - exists tasks. split; [done|]. intros k. destruct (get_task tasks k); simpl; [|done].
    by rewrite unblocked_nil.
Qed.

(** C3.  Run for a task of the collection, completion propagation returns
    and every task listed in that task's [blocks] that is Blocked and whose
    [depends_on] ids are all Completed is now Pending, with nothing else
    about it changed; every other task, among them a dependent with an
    unmet dependency, a dependent that is not Blocked and any task not in
    [blocks], is exactly as it was. *)
Theorem unblock_dependent_tasks_spec cid ct tasks :
  get_task tasks cid = Some ct →
  ∃ tasks',
    _unblock_dependent_tasks cid tasks = Return () tasks'
    ∧ (∀ k t, k ∈ blocks ct → get_task tasks k = Some t →
              status t = BLOCKED →
              (∀ d, d ∈ depends_on t → CompletedIn tasks d) →
              get_task tasks' k = Some (set_status PENDING t))
    ∧ (∀ k t, get_task tasks k = Some t →
              ¬ (k ∈ blocks ct ∧ status t = BLOCKED
                 ∧ ∀ d, d ∈ depends_on t → CompletedIn tasks d) →
              get_task tasks' k = Some t)
    ∧ (∀ k, get_task tasks k = None → get_task tasks' k = None).
Proof.
  intros Hc. destruct (_unblock_dependent_tasks_run cid tasks) as (tasks' & Hrun & Hget).
  rewrite Hc in Hget. simpl in Hget.
  exists tasks'. split_and!; [done|..].
  - intros k t Hk Ht Hst Hdeps. rewrite Hget, Ht. simpl. f_equal.
    unfold unblocked. rewrite !bool_decide_eq_true_2 by done.
    apply forallb_is_completed in Hdeps. by rewrite Hdeps.
  - intros k t Ht Hnot. rewrite Hget, Ht. simpl. f_equal.
    unfold unblocked.
    destruct (_ && _ && _) eqn:Hcond; [|done]. exfalso. apply Hnot.
    apply andb_true_iff in Hcond as [[Hk Hst]%andb_true_iff Hall].
    apply bool_decide_eq_true in Hk, Hst.
    split_and!; [done..|]. by apply forallb_is_completed.
  - intros k Hk. by rewrite Hget, Hk.
Qed.

Lemma unblock_dependent_tasks_spec_witness :
  ∃ tasks',
    _unblock_dependent_tasks "B" dependents_store = Return () tasks'
    ∧ get_task tasks' "A" = Some (make_task "A" PENDING None [] ["B"] [])
    ∧ get_task tasks' "C" = Some (make_task "C" BLOCKED None [] ["B"; "D"] []).
Proof.
  destruct (unblock_dependent_tasks_spec "B"
              (make_task "B" COMPLETED None [] [] ["A"; "C"])
              dependents_store eq_refl)
    as (tasks' & Hrun & Hyes & Hno & _).
  exists tasks'. split_and!; [exact Hrun|..].
  - apply (Hyes "A" (make_task "A" BLOCKED None [] ["B"] [])); [|reflexivity..|].
    + apply list_elem_of_here.
    + intros d ->%list_elem_of_singleton. eexists. split; reflexivity.
  - apply (Hno "C"); [reflexivity|]. intros (_ & _ & Hall).
    destruct (Hall "D") as (t & Ht & Hst).
    + apply list_elem_of_further, list_elem_of_here.
    + vm_compute in Ht. injection Ht as <-. discriminate Hst.
Defined.

End Unblock.

(** ** Completion propagation: auto-completing ancestors *)

Section ParentCompletion.
Import Tasks Orchestrator.
Implicit Types (tasks s : TaskStore) (k pid : string) (t p : Task).

Lemma in_progress_count_le tasks : in_progress_count tasks ≤ length tasks.
Proof. apply length_filter. Qed.

(** Completing the InProgress task stored under [k] lowers the count. *)
Lemma in_progress_count_set tasks k p p' :
  get_task tasks k = Some p → status p = IN_PROGRESS → status p' ≠ IN_PROGRESS →
  in_progress_count (set_task tasks k p') < in_progress_count tasks.
Proof.
  unfold in_progress_count. intros Hget Hp Hp'.
  induction tasks as [|[k0 t0] tasks IH]; cbn [get_task set_task] in *; [done|].
  case_decide as Hk.
  - injection Hget as ->. rewrite filter_cons_False by done.
    rewrite filter_cons_True by done. simpl. lia.
  - rewrite !filter_cons. specialize (IH Hget). case_decide; simpl; lia.
Qed.

Lemma auto_completed_status p : status (auto_completed p) = COMPLETED.
Proof. done. Qed.

(** One unfolding of [_check_parent_completion] when the parent is
    auto-completed. *)
Lemma _check_parent_completion_complete fuel pid p tasks :
  get_task tasks pid = Some p → status p = IN_PROGRESS →
  subtasks p ≠ [] → forallb (is_completed tasks) (subtasks p) = true →
  _check_parent_completion (S fuel) pid tasks =
  let tasks1 := set_task tasks pid (auto_completed p) in
  match parent_id p with
  | Some gp =>
      if truthy gp then _check_parent_completion fuel gp tasks1
      else Some (Return () tasks1)
  | None => Some (Return () tasks1)
  end.
Proof.
  intros Hget Hst Hne Hall. simpl. rewrite Hget.
  rewrite decide_False by (by intros ?).
  rewrite Hall, bool_decide_eq_false_2 by done. simpl.
  unfold update_task. rewrite Hget. simpl. done.
Qed.

(** One unfolding when it is not. *)
Lemma _check_parent_completion_skip fuel pid tasks :
  (∀ p, get_task tasks pid = Some p →
        status p ≠ IN_PROGRESS ∨ subtasks p = []
        ∨ forallb (is_completed tasks) (subtasks p) = false) →
  _check_parent_completion (S fuel) pid tasks = Some (Return () tasks).
Proof.
  intros Hskip. simpl. destruct (get_task tasks pid) as [p|]; [|done].
  case_decide as Hst; [done|].
  destruct (Hskip p eq_refl) as [?|[Hnil|Hall]]; [done|..].
  - by rewrite Hnil, andb_false_r.
  - by rewrite Hall.
Qed.

(** With more fuel than InProgress tasks the walk up the parent chain
    returns; it touches InProgress tasks only. *)
Lemma _check_parent_completion_total fuel :
  ∀ pid tasks,
    in_progress_count tasks < fuel →
    ∃ tasks',
      _check_parent_completion fuel pid tasks = Some (Return () tasks')
      ∧ ∀ k t, get_task tasks k = Some t → status t ≠ IN_PROGRESS →
               get_task tasks' k = Some t.
Proof.
  induction fuel as [|fuel IH]; intros pid tasks Hlt; [lia|].
  destruct (get_task tasks pid) as [p|] eqn:Hget.
  2:{ exists tasks. split; [|done]. apply _check_parent_completion_skip.
      intros p. by rewrite Hget. }
  destruct (decide (status p = IN_PROGRESS
                    ∧ subtasks p ≠ []
                    ∧ forallb (is_completed tasks) (subtasks p) = true))
    as [(Hst & Hne & Hall)|Hno].
  2:{ exists tasks. split; [|done]. apply _check_parent_completion_skip.
      intros p'. rewrite Hget. intros [= <-].
      destruct (decide (status p = IN_PROGRESS)); [|by left]. right.
      destruct (decide (subtasks p = [])); [by left|]. right.
      destruct (forallb _ _); [|done]. exfalso. by apply Hno. }
  rewrite (_check_parent_completion_complete fuel pid p) by done.
  set (tasks1 := set_task tasks pid (auto_completed p)).
  assert (∀ k t, get_task tasks k = Some t → status t ≠ IN_PROGRESS →
                 get_task tasks1 k = Some t) as Hframe.
  { intros k t Hk Hkst. unfold tasks1. rewrite get_set_ne; [done|].
    intros ->. congruence. }
  assert (in_progress_count tasks1 < fuel) as Hlt1.
  { assert (in_progress_count tasks1 < in_progress_count tasks); [|lia].
    by apply (in_progress_count_set tasks pid p). }
  simpl. destruct (parent_id p) as [gp|]; [|by exists tasks1].
  destruct (truthy gp); [|by exists tasks1].
  destruct (IH gp tasks1 Hlt1) as (tasks' & Hrun & Hframe').
  exists tasks'. split; [done|]. intros k t Hk Hkst. apply Hframe'; [|done].
  by apply Hframe.
Qed.





(** The grandparent is auto-completed in the same call. *)
Example check_parent_completion_recurses :
  (λ kt : string * Task, (kt.1, status kt.2, result kt.2))
    <$> final_store (check_parent_completion "P" family_store)
  = [("G", COMPLETED, Some "All 1 subtasks completed successfully");
     ("P", COMPLETED, Some "All 2 subtasks completed successfully");
     ("C1", COMPLETED, None); ("C2", COMPLETED, None)].
Proof. vm_compute. reflexivity. Qed.

End ParentCompletion.

(** ** Executing a task: the result contract *)

Section Execution.
Import Tasks Orchestrator.
Implicit Types (tasks s : TaskStore) (k tid : string) (t : Task).





(** The same for a task brought to the state [_handle_interrupt] leaves
    (Pending, partial result kept) and executed again, whether it then
    succeeds or fails. *)
Example resumed_task_has_result_and_error :
  let interrupted :=
    final_store (_handle_interrupt "T" (Some "partial text") fresh_store) in
  (λ t, (status t, result t, error t))
    <$> get_task interrupted "T"
  = Some (PENDING, Some "partial text", Some "Interrupted by user")
  ∧ (λ t, (status t, result t, error t))
      <$> get_task (final_store
                      (_execute_task "T" None (EndTurn "done") interrupted)) "T"
    = Some (COMPLETED, Some "done", Some "Interrupted by user")
  ∧ (λ t, (status t, result t, error t))
      <$> get_task (final_store
                      (_execute_task "T" None (LoopError "provider down")
                         interrupted)) "T"
    = Some (FAILED, Some "partial text", Some "provider down").
Proof. vm_compute. by split_and!. Qed.

(** The scenario of two tasks: A depends on B and is Blocked, B is handed
    out and executed, A becomes Pending and is handed out next. *)
Example complete_then_unblock :
  let after_b := final_store (_execute_task "B" None (EndTurn "done")
                                two_tasks_linked) in
  task_id <$> get_next_executable_task two_tasks_linked = Some "B"
  ∧ status <$> get_task after_b "B" = Some COMPLETED
  ∧ status <$> get_task after_b "A" = Some PENDING
  ∧ task_id <$> get_next_executable_task after_b = Some "A".
Proof. vm_compute. by split_and!. Qed.

End Execution.

(** ** Execution order: the loop of Kahn's algorithm *)

Section KahnLoop.
Import Tasks.
Implicit Types (tasks : TaskStore) (ids queue : list string)
  (task_map : gmap string Task) (in_degree : gmap string Z) (k d : string).

(** *** The two maps built by the first loop *)

Lemma index_tasks_fold tasks ids (acc : gmap string Task * gmap string Z) k :
  let r := foldl (λ acc task_id,
                    match get_task tasks task_id with
                    | Some task =>
                        (<[task_id := task]> acc.1,
                         <[task_id := in_degree_of task]> acc.2)
                    | None => acc
                    end) acc ids in
  r.1 !! k = (if decide (k ∈ ids ∧ is_Some (get_task tasks k))
              then get_task tasks k else acc.1 !! k)
  ∧ r.2 !! k = (if decide (k ∈ ids ∧ is_Some (get_task tasks k))
                then in_degree_of <$> get_task tasks k else acc.2 !! k).
Proof.
  revert acc. induction ids as [|x ids IH]; intros acc; cbn [foldl].
  - rewrite decide_False; [done|]. intros [?%not_elem_of_nil _]. done.
  - specialize (IH (match get_task tasks x with
                    | Some task =>
                        (<[x := task]> acc.1, <[x := in_degree_of task]> acc.2)
                    | None => acc
                    end)).
    simpl in IH. destruct IH as [-> ->].
    destruct (decide (k ∈ ids ∧ is_Some (get_task tasks k))) as [[Hin Hs]|Hno].
    + destruct (decide (k ∈ x :: ids ∧ is_Some (get_task tasks k))) as [|Hn];
        [done|]. destruct Hn. split; [by right|done].
    + destruct (decide (k = x)) as [->|Hne].
      * destruct (get_task tasks x) as [t|] eqn:Hx; simpl.
        -- rewrite !lookup_insert_eq.
           destruct (decide (x ∈ x :: ids ∧ is_Some (Some t))) as [|Hn];
             [done|]. destruct Hn. split; [by left|by eexists].
        -- destruct (decide (x ∈ x :: ids ∧ is_Some (@None Task)))
             as [[_ [? [=]]]|]; done.
      * destruct (decide (k ∈ x :: ids ∧ is_Some (get_task tasks k)))
          as [[Hin Hs]|_].
        { destruct Hno. split; [|done]. apply elem_of_cons in Hin. naive_solver. }
        destruct (get_task tasks x); simpl; by rewrite ?lookup_insert_ne.
Qed.

Lemma index_tasks_map tasks ids k :
  (index_tasks tasks ids).1 !! k =
  if decide (k ∈ ids) then get_task tasks k else None.
Proof.
  unfold index_tasks. destruct (index_tasks_fold tasks ids (∅, ∅) k) as [-> _].
  simpl. rewrite lookup_empty. destruct (decide (k ∈ ids)) as [Hin|Hnin].
  - destruct (get_task tasks k) eqn:Hk; case_decide as Hc; try done.
    destruct Hc. split; [done|by eexists].
  - case_decide as Hc; [by destruct Hc|done].
Qed.

Lemma index_tasks_degree tasks ids k :
  (index_tasks tasks ids).2 !! k = in_degree_of <$> (index_tasks tasks ids).1 !! k.
Proof.
  rewrite index_tasks_map.
  unfold index_tasks. destruct (index_tasks_fold tasks ids (∅, ∅) k) as [_ ->].
  simpl. rewrite lookup_empty. destruct (decide (k ∈ ids)) as [Hin|Hnin].
  - destruct (get_task tasks k) eqn:Hk; case_decide as Hc; try done.
    destruct Hc. split; [done|by eexists].
  - case_decide as Hc; [by destruct Hc|done].
Qed.

(** *** The inner loop over [task.blocks] *)

Lemma foldl_relax bl :
  NoDup bl →
  ∀ in_degree queue,
    let r := foldl relax (in_degree, queue) bl in
    (∀ k, r.1 !! k =
          (λ n, if decide (k ∈ bl) then (n - 1)%Z else n) <$> in_degree !! k)
    ∧ r.2 = queue ++ filter (λ b, in_degree !! b = Some 1%Z) bl.
Proof.
  induction 1 as [|b bl Hb Hnd IH]; intros deg q; simpl.
  - split; [|by rewrite app_nil_r]. intros k. by destruct (deg !! k).
  - destruct (IH (relax (deg, q) b).1 (relax (deg, q) b).2) as [Hdeg Hq].
    rewrite <- surjective_pairing in Hdeg, Hq.
    assert (∀ b', b' ∈ bl → (relax (deg, q) b).1 !! b' = deg !! b') as Hsame.
    { intros b' Hb'. unfold relax. simpl. destruct (deg !! b); simpl; [|done].
      rewrite lookup_insert_ne; [done|]. by intros ->. }
    split.
    + intros k. rewrite Hdeg. unfold relax. simpl.
      destruct (decide (k = b)) as [->|Hne].
      * destruct (deg !! b) as [n|] eqn:Hdb; simpl.
        -- rewrite lookup_insert_eq. simpl.
           rewrite decide_False by done. by rewrite decide_True by set_solver.
        -- by rewrite Hdb.
      * assert ((relax (deg, q) b).1 !! k = deg !! k) as Hk.
        { unfold relax. simpl. destruct (deg !! b); simpl; [|done].
          by rewrite lookup_insert_ne. }
        unfold relax in Hk. simpl in Hk. rewrite Hk.
        destruct (deg !! k); simpl; [|done]. f_equal.
        destruct (decide (k ∈ bl)).
        -- by rewrite decide_True by set_solver.
        -- by rewrite decide_False by set_solver.
    + rewrite Hq. rewrite filter_cons.
      assert (filter (λ b0, (relax (deg, q) b).1 !! b0 = Some 1%Z) bl
              = filter (λ b0, deg !! b0 = Some 1%Z) bl) as ->.
      { apply filter_ext_in. intros b' Hb'. by rewrite Hsame. }
      unfold relax. simpl. destruct (deg !! b) as [n|]; simpl.
      * destruct (decide (n - 1 = 0)%Z).
        -- rewrite decide_True by (f_equal; lia). by rewrite <- app_assoc.
        -- rewrite decide_False; [done|]. intros [= ->]. lia.
      * done.
Qed.

(** *** The loop returns *)

Lemma positive_count_le in_degree : positive_count in_degree ≤ size in_degree.
Proof. apply map_subseteq_size, map_filter_subseteq. Qed.

(** A turn of the inner loop keeps "queue length plus counters above zero"
    as it is: an id joins the queue exactly when its counter leaves the
    positive ones. *)
Lemma relax_potential (acc : gmap string Z * list string) b :
  length (relax acc b).2 + positive_count (relax acc b).1
  = length acc.2 + positive_count acc.1.
Proof.
  destruct acc as [deg q]. unfold relax, positive_count. simpl.
  destruct (deg !! b) as [n|] eqn:Hb; simpl; [|done].
  destruct (decide (0 < n - 1)%Z) as [Hpos|Hnpos].
  - rewrite map_filter_insert_True by done.
    rewrite map_size_insert_Some.
    + rewrite decide_False by lia. done.
    + exists n. apply map_lookup_filter_Some. split; [done|]. simpl. lia.
  - rewrite map_filter_insert_False by done.
    rewrite map_filter_delete.
    destruct (decide (n - 1 = 0)%Z) as [Hz|Hnz].
    + rewrite map_size_delete_Some.
      * rewrite length_app. simpl.
        assert (0 < size (filter (λ kv : string * Z, (0 < kv.2)%Z) deg)); [|lia].
        destruct (decide (size (filter (λ kv : string * Z, (0 < kv.2)%Z) deg) = 0))
          as [Hz0|]; [|lia].
        apply map_size_empty_inv in Hz0.
        assert (filter (λ kv : string * Z, (0 < kv.2)%Z) deg !! b = Some n) as Hin.
        { apply map_lookup_filter_Some. split; [done|]. simpl. lia. }
        rewrite Hz0 in Hin. by rewrite lookup_empty in Hin.
      * exists n. apply map_lookup_filter_Some. split; [done|]. simpl. lia.
    + rewrite map_size_delete_None; [done|].
      apply map_lookup_filter_None. right. intros n' Hn'. simplify_eq. simpl. lia.
Qed.

Lemma foldl_relax_potential bl (acc : gmap string Z * list string) :
  length (foldl relax acc bl).2 + positive_count (foldl relax acc bl).1
  = length acc.2 + positive_count acc.1.
Proof.
  revert acc. induction bl as [|b bl IH]; intros acc; simpl; [done|].
  by rewrite IH, relax_potential.
Qed.

Lemma kahn_loop_total fuel :
  ∀ task_map in_degree queue result,
    length queue + positive_count in_degree < fuel →
    is_Some (kahn_loop fuel task_map in_degree queue result).
Proof.
  induction fuel as [|fuel IH]; intros tm deg q res Hlt; [lia|]. simpl.
  destruct q as [|x q]; [by eexists|]. simpl in Hlt.
  destruct (tm !! x) as [t|].
  - apply IH.
    pose proof (foldl_relax_potential (blocks t) (deg, q)) as Hpot.
    simpl in Hpot. lia.
  - apply IH. lia.
Qed.

(** Marking [x] as done removes it once from the open dependencies. *)
Lemma open_dependencies_snoc (l finished : list string) x :
  NoDup l → x ∉ finished →
  length (filter (λ d, d ∉ finished) l)
  = length (filter (λ d, d ∉ finished ++ [x]) l) + (if decide (x ∈ l) then 1 else 0).
Proof.
  intros Hnd Hx. induction Hnd as [|y l Hy Hnd IH]; [done|].
  rewrite !filter_cons, (decide_ext (x ∈ y :: l) (x = y ∨ x ∈ l))
    by apply elem_of_cons.
  destruct (decide (y = x)) as [->|Hne].
  - rewrite decide_True by done. rewrite decide_False by set_solver.
    rewrite decide_True by (by left). simpl. rewrite IH.
    rewrite decide_False by done. lia.
  - destruct (decide (y ∉ finished)) as [Hyd|Hyd].
    + rewrite decide_True by set_solver. simpl. rewrite IH.
      destruct (decide (x ∈ l)).
      * rewrite decide_True by (by right). lia.
      * rewrite decide_False by naive_solver. lia.
    + rewrite decide_False by set_solver. rewrite IH.
      destruct (decide (x ∈ l)).
      * rewrite decide_True by (by right). lia.
      * rewrite decide_False by naive_solver. lia.
Qed.

Lemma open_dependencies_none (l finished : list string) :
  length (filter (λ d, d ∉ finished) l) = 0 ↔ ∀ d, d ∈ l → d ∈ finished.
Proof.
  induction l as [|y l IH]; [set_solver|].
  rewrite filter_cons. destruct (decide (y ∉ finished)) as [Hy|Hy]; simpl.
  - split; [lia|]. intros Hall. destruct Hy. apply Hall. by left.
  - rewrite IH. apply dec_stable in Hy. set_solver.
Qed.

End KahnLoop.

(** ** Execution order: what the loop maintains *)

Section KahnInvariant.
Import Tasks.
Context (tasks : TaskStore) (task_map : gmap string Task).
Hypothesis Hwf : WellFormed tasks.
Hypothesis Hmap : ∀ k t, task_map !! k = Some t → get_task tasks k = Some t.
Implicit Types (queue finished : list string) (in_degree : gmap string Z)
  (k d x : string).

(** Between two tasks of [task_map], [blocks] is the inverse of
    [depends_on]. *)
Lemma task_map_inverse k x tk tx :
  task_map !! k = Some tk → task_map !! x = Some tx →
  (k ∈ blocks tx ↔ x ∈ depends_on tk).
Proof.
  intros Hk%Hmap Hx%Hmap. destruct Hwf as [Hinv _]. symmetry. by eapply Hinv.
Qed.

Lemma task_map_NoDup k tk :
  task_map !! k = Some tk → NoDup (depends_on tk) ∧ NoDup (blocks tk).
Proof. intros Hk%Hmap. destruct Hwf as [_ Hnd]. by eapply Hnd. Qed.

(** The loop takes an id off the queue that names no task. *)
Lemma KahnInv_skip in_degree x queue finished result :
  task_map !! x = None →
  KahnInv task_map in_degree (x :: queue) finished result →
  KahnInv task_map in_degree queue finished result.
Proof.
  intros Hx [Hnd Hres Hdom Hdeg Hready Hord]. split; try done.
  - apply NoDup_app in Hnd as (? & Hdisj & [? ?]%NoDup_cons).
    apply NoDup_app. split_and!; [done| |done]. intros y Hy Hq.
    apply (Hdisj y Hy). by right.
  - intros k t Hk. rewrite <- (Hready k t Hk).
    rewrite !elem_of_app, elem_of_cons.
    assert (k ≠ x) by congruence. naive_solver.
Qed.

(** The loop takes the id of a task off the queue, appends the task to the
    result and lowers the counters of the tasks it blocks. *)
Lemma KahnInv_process in_degree x tx queue finished result :
  task_map !! x = Some tx →
  KahnInv task_map in_degree (x :: queue) finished result →
  let acc := foldl relax (in_degree, queue) (blocks tx) in
  KahnInv task_map acc.1 acc.2 (finished ++ [x]) (result ++ [tx]).
Proof.
  intros Hx [Hnd Hres Hdom Hdeg Hready Hord] acc.
  destruct (task_map_NoDup x tx Hx) as [_ Hbl].
  destruct (foldl_relax (blocks tx) Hbl in_degree queue) as [Hacc1 Hacc2].
  fold acc in Hacc1, Hacc2.
  apply NoDup_app in Hnd as (Hnd_done & Hdisj & [Hxq Hnd_q]%NoDup_cons).
  assert (x ∉ finished) as Hxd.
  { intros Hin. apply (Hdisj x Hin). by left. }
  (* the open dependencies of a task before and after [x] is done *)
  assert (∀ k tk, task_map !! k = Some tk →
            length (filter (λ d, d ∉ finished) (depends_on tk))
            = length (filter (λ d, d ∉ finished ++ [x]) (depends_on tk))
              + (if decide (k ∈ blocks tx) then 1 else 0)) as Hopen.
  { intros k tk Hk. destruct (task_map_NoDup k tk Hk) as [Hdk _].
    rewrite (open_dependencies_snoc _ finished x Hdk Hxd).
    pose proof (task_map_inverse k x tk tx Hk Hx) as Hiff.
    destruct (decide (x ∈ depends_on tk)), (decide (k ∈ blocks tx));
      naive_solver. }
  (* an id is pushed when [x] was its last open dependency *)
  assert (∀ k tk, task_map !! k = Some tk →
            (k ∈ filter (λ b, in_degree !! b = Some 1%Z) (blocks tx)
             ↔ k ∈ blocks tx
               ∧ length (filter (λ d, d ∉ finished ++ [x]) (depends_on tk)) = 0))
    as Hpushed.
  { intros k tk Hk. rewrite list_elem_of_filter, (Hdeg k tk Hk).
    specialize (Hopen k tk Hk). destruct (decide (k ∈ blocks tx)).
    - split; [intros [[= ?] ?]; split; [done|lia]|].
      intros [_ H0]. split; [f_equal; lia|done].
    - naive_solver. }
  assert (∀ k, k ∈ filter (λ b, in_degree !! b = Some 1%Z) (blocks tx) →
               (k ∉ finished) ∧ k ≠ x ∧ (k ∉ queue)) as Hfresh.
  { intros k. destruct (task_map !! k) as [tk|] eqn:Htk; intros Hk.
    2:{ apply list_elem_of_filter in Hk as [Hk _]. by rewrite (Hdom k Htk) in Hk. }
    apply (Hpushed k tk Htk) in Hk as [Hkb Hk0].
    specialize (Hopen k tk Htk). rewrite decide_True in Hopen by done.
    assert (¬ (k ∈ finished ++ x :: queue)) as Hnot.
    { rewrite (Hready k tk Htk), <- open_dependencies_none. lia. }
    rewrite elem_of_app, elem_of_cons in Hnot. naive_solver. }
  split.
  - (* no id is listed twice *)
    rewrite Hacc2. rewrite <- app_assoc. apply NoDup_app. split_and!; [done|..].
    + intros y Hy. rewrite !elem_of_app, list_elem_of_singleton.
      intros [->|[Hq|Hp]]; [done|by apply (Hdisj y Hy); right|].
      by destruct (Hfresh y Hp).
    + apply NoDup_app. split_and!; [apply NoDup_singleton|..].
      * intros y ->%list_elem_of_singleton. rewrite elem_of_app.
        intros [?|Hp]; [done|]. by destruct (Hfresh x Hp) as (_ & ? & _).
      * apply NoDup_app. split_and!; [done| |by apply NoDup_filter].
        intros y Hy Hp. by destruct (Hfresh y Hp) as (_ & _ & ?).
  - apply Forall2_app; [done|]. by constructor.
  - intros k Hk. rewrite Hacc1, (Hdom k Hk). done.
  - intros k tk Hk. rewrite Hacc1, (Hdeg k tk Hk). simpl. f_equal.
    specialize (Hopen k tk Hk). destruct (decide (k ∈ blocks tx)); lia.
  - intros k tk Hk. rewrite <- open_dependencies_none. rewrite Hacc2.
    specialize (Hopen k tk Hk). specialize (Hpushed k tk Hk).
    specialize (Hready k tk Hk). rewrite <- open_dependencies_none in Hready.
    rewrite !elem_of_app, list_elem_of_singleton.
    rewrite elem_of_app, elem_of_cons in Hready.
    destruct (decide (k ∈ blocks tx)) as [Hkb|Hkb].
    + split.
      * intros [[Hd| ->]|[Hq|Hp]]; [| | |by apply Hpushed].
        all: assert (length (filter (λ d, d ∉ finished) (depends_on tk)) = 0)
          by (apply Hready; auto); lia.
      * intros H0. right. right. by apply Hpushed.
    + split.
      * intros [[Hd| ->]|[Hq|Hp]]; [| | |by apply Hpushed].
        all: assert (length (filter (λ d, d ∉ finished) (depends_on tk)) = 0)
          by (apply Hready; auto); lia.
      * intros H0.
        assert (k ∈ finished ∨ k = x ∨ k ∈ queue) as Hin by (apply Hready; lia).
        naive_solver.
  - intros i k tk d Hi Hk Hd.
    destruct (decide (i < length finished)) as [Hlt|Hge].
    + rewrite lookup_app_l in Hi by done.
      destruct (Hord i k tk d Hi Hk Hd) as (j & Hj & Hjd).
      exists j. split; [done|]. rewrite lookup_app_l by lia. done.
    + rewrite lookup_app_r in Hi by lia.
      apply list_lookup_singleton_Some in Hi as [Hi0 <-].
      assert (d ∈ finished) as Hdd.
      { apply (Hready x tk Hk); [|done]. rewrite elem_of_app. right. by left. }
      apply list_elem_of_lookup in Hdd as [j Hj].
      exists j. pose proof (lookup_lt_Some _ _ _ Hj).
      split; [lia|]. by rewrite lookup_app_l.
Qed.

(** When the loop ends, the invariant holds with an empty queue. *)
Lemma kahn_loop_KahnInv fuel :
  ∀ in_degree queue finished result r,
    KahnInv task_map in_degree queue finished result →
    kahn_loop fuel task_map in_degree queue result = Some r →
    ∃ in_degree' finished', KahnInv task_map in_degree' [] finished' r.
Proof.
  induction fuel as [|fuel IH]; intros deg q finished res r Hinv Hrun; [done|].
  simpl in Hrun. destruct q as [|x q].
  - injection Hrun as <-. by exists deg, finished.
  - destruct (task_map !! x) as [tx|] eqn:Hx.
    + eapply IH; [|exact Hrun]. by apply KahnInv_process.
    + eapply IH; [|exact Hrun]. by eapply KahnInv_skip.
Qed.

(** Along a dependency path the position in [done] goes down. *)
Lemma KahnInv_tc in_degree finished result x y :
  KahnInv task_map in_degree [] finished result →
  tc (depends tasks) x y →
  ∀ i, finished !! i = Some x → ∃ j, j < i ∧ finished !! j = Some y.
Proof.
  intros Hinv. 
  assert (∀ a b i, depends tasks a b → finished !! i = Some a →
                   ∃ j, j < i ∧ finished !! j = Some b) as Hstep.
  { intros a b i (t & Ht & Hb) Hi.
    destruct (Forall2_lookup_l _ _ _ _ _ (kahn_result _ _ _ _ _ Hinv) Hi)
      as (t' & _ & Ht').
    pose proof (Hmap _ _ Ht') as Hm. simplify_eq.
    by eapply (kahn_order _ _ _ _ _ Hinv). }
  induction 1 as [a b Hab|a b c Hab _ IH]; intros i Hi.
  - by eapply Hstep.
  - destruct (Hstep a b i Hab Hi) as (j & Hj & Hjb).
    destruct (IH j Hjb) as (j' & Hj' & Hjc). exists j'. split; [lia|done].
Qed.

End KahnInvariant.

(** ** A finite set in which every element has a successor has a cycle *)

Section Cycles.
Context {A : Type} `{EqDecision A}.

Lemma tc_absorb (R R' : relation A) :
  (∀ x y, R' x y → tc R x y) → ∀ x y, tc R' x y → tc R x y.
Proof.
  intros Hsub x y. induction 1 as [x y Hxy|x y z Hxy _ IH]; [by apply Hsub|].
  etransitivity; [by apply Hsub|done].
Qed.

Lemma cycle_among (n : nat) :
  ∀ (R : relation A) (U : list A),
    length U = n → U ≠ [] →
    (∀ x, x ∈ U → ∃ y, y ∈ U ∧ R x y) →
    ∃ x, tc R x x.
Proof.
  induction n as [n IH] using lt_wf_ind. intros R U Hlen Hne Hsucc.
  destruct U as [|u U]; [done|].
  destruct (Hsucc u) as (v & Hv & Huv); [by left|].
  destruct (decide (v = u)) as [->|Hvu]; [exists u; by apply tc_once|].
  set (R' x y := R x y ∨ (R x u ∧ R u y)).
  assert (v ∈ filter (λ x, x ≠ u) U) as Hv'.
  { apply list_elem_of_filter. split; [done|]. apply elem_of_cons in Hv.
    naive_solver. }
  destruct (IH (length (filter (λ x, x ≠ u) U))) with (R := R')
    (U := filter (λ x, x ≠ u) U) as [x Hx]; [|done| | |].
  - simpl in Hlen. pose proof (length_filter (λ x, x ≠ u) U). lia.
  - intros Hnil. rewrite Hnil in Hv'. by apply not_elem_of_nil in Hv'.
  - intros x [Hxu Hx]%list_elem_of_filter.
    destruct (Hsucc x) as (y & Hy & Hxy); [by right|].
    destruct (decide (y = u)) as [->|Hyu].
    + exists v. split; [done|]. by right.
    + exists y. split; [|by left]. apply list_elem_of_filter.
      apply elem_of_cons in Hy. naive_solver.
  - exists x. revert Hx. apply tc_absorb. intros a b [Hab|[Hau Hub]].
    + by apply tc_once.
    + eapply tc_l; [done|]. by apply tc_once.
Qed.

End Cycles.

(** ** Execution order: [get_execution_order] *)

Section ExecutionOrder.
Import Tasks.
Implicit Types (tasks : TaskStore) (ids order : list string) (k d : string).

Lemma filter_notin_nil (l : list string) : filter (λ d, d ∉ @nil string) l = l.
Proof.
  induction l as [|x l IH]; [done|].
  rewrite filter_cons_True by apply not_elem_of_nil. by rewrite IH.
Qed.

Lemma index_tasks_get tasks ids k t :
  (index_tasks tasks ids).1 !! k = Some t → get_task tasks k = Some t ∧ k ∈ ids.
Proof. rewrite index_tasks_map. by case_decide. Qed.

Lemma elem_of_existing tasks ids k :
  k ∈ existing tasks ids ↔ is_Some ((index_tasks tasks ids).1 !! k).
Proof.
  unfold existing. rewrite list_elem_of_filter, index_tasks_map.
  case_decide; [naive_solver|]. split; [naive_solver|]. by intros [? [=]].
Qed.

(** [len(task_map)] is the number of given ids that name a task. *)
Lemma size_index_tasks tasks ids :
  NoDup ids → size (index_tasks tasks ids).1 = length (existing tasks ids).
Proof.
  intros Hnd. rewrite <- size_dom.
  rewrite <- (size_list_to_set (C := gset string) (existing tasks ids))
    by by apply NoDup_filter.
  f_equal. apply set_eq. intros k.
  by rewrite elem_of_dom, elem_of_list_to_set, elem_of_existing.
Qed.

Lemma KahnInv_initial tasks ids :
  NoDup ids →
  KahnInv (index_tasks tasks ids).1 (index_tasks tasks ids).2
    (initial_queue (index_tasks tasks ids).2 ids) [] [].
Proof.
  intros Hnd. split; simpl.
  - by apply NoDup_filter.
  - constructor.
  - intros k Hk. by rewrite index_tasks_degree, Hk.
  - intros k t Hk. rewrite index_tasks_degree, Hk, filter_notin_nil. done.
  - intros k t Hk. unfold initial_queue.
    rewrite list_elem_of_filter, index_tasks_degree, Hk. simpl.
    apply index_tasks_get in Hk as [_ Hin]. unfold in_degree_of.
    destruct (depends_on t) as [|d ds]; simpl.
    + split; [|done]. intros _ d Hd. by apply not_elem_of_nil in Hd.
    + split; [lia|]. intros Hall. specialize (Hall d). 
      exfalso. eapply not_elem_of_nil, Hall. by left.
  - intros i k t d Hi. done.
Qed.

(** The loop returns a list for which the invariant holds with an empty
    queue. *)
Lemma get_execution_order_loop tasks ids :
  NoDup ids → WellFormed tasks →
  ∃ r in_degree finished,
    kahn_loop (S (length (initial_queue (index_tasks tasks ids).2 ids)
                  + size (index_tasks tasks ids).2))
      (index_tasks tasks ids).1 (index_tasks tasks ids).2
      (initial_queue (index_tasks tasks ids).2 ids) [] = Some r
    ∧ KahnInv (index_tasks tasks ids).1 in_degree [] finished r.
Proof.
  intros Hnd Hwf.
  destruct (kahn_loop_total
              (S (length (initial_queue (index_tasks tasks ids).2 ids)
                  + size (index_tasks tasks ids).2))
              (index_tasks tasks ids).1 (index_tasks tasks ids).2
              (initial_queue (index_tasks tasks ids).2 ids) []) as [r Hr].
  { pose proof (positive_count_le (index_tasks tasks ids).2). lia. }
  destruct (kahn_loop_KahnInv tasks (index_tasks tasks ids).1 Hwf) with
    (fuel := S (length (initial_queue (index_tasks tasks ids).2 ids)
                + size (index_tasks tasks ids).2))
    (in_degree := (index_tasks tasks ids).2)
    (queue := initial_queue (index_tasks tasks ids).2 ids)
    (finished := @nil string) (result := @nil Task) (r := r)
    as (deg' & fin & Hinv); [|by apply KahnInv_initial|done|].
  - intros k t Hk. by apply index_tasks_get in Hk as [? _].
  - by exists r, deg', fin.
Qed.

(** The fuel [get_execution_order] passes is enough. *)
Lemma get_execution_order_fuel tasks ids :
  is_Some (kahn_loop (S (length (initial_queue (index_tasks tasks ids).2 ids)
                         + size (index_tasks tasks ids).2))
             (index_tasks tasks ids).1 (index_tasks tasks ids).2
             (initial_queue (index_tasks tasks ids).2 ids) []).
Proof.
  apply kahn_loop_total.
  pose proof (positive_count_le (index_tasks tasks ids).2). lia.
Qed.

(** The keys the loop has finished are given ids that name a task, each
    once; with as many of them as there are such ids, they are all of
    them. *)
Lemma KahnInv_finished tasks ids in_degree finished r :
  KahnInv (index_tasks tasks ids).1 in_degree [] finished r →
  NoDup finished ∧ length r = length finished
  ∧ (∀ k, k ∈ finished → k ∈ existing tasks ids)
  ∧ Forall2 (λ k t, get_task tasks k = Some t) finished r.
Proof.
  intros [Hnd Hres _ _ _ _]. rewrite app_nil_r in Hnd. split_and!; [done|..].
  - symmetry. by eapply Forall2_length.
  - intros k [i Hi]%list_elem_of_lookup.
    destruct (Forall2_lookup_l _ _ _ _ _ Hres Hi) as (t & _ & Ht).
    apply elem_of_existing. by eexists.
  - eapply Forall2_impl; [exact Hres|]. intros k t Hk. simpl in Hk.
    by apply index_tasks_get in Hk as [? _].
Qed.

(** Where [get_execution_order] does what Kahn's algorithm promises.  For
    a duplicate-free list of ids over a well-formed collection: if every
    dependency of a given task is itself a given task of the collection and
    the dependency relation among the given ids is acyclic, it returns the
    tasks of a permutation of the given ids that name a task, each task after
    all the tasks it depends on; if some given id lies on a dependency cycle,
    it raises the cycle error. *)
Theorem get_execution_order_closed ids tasks :
  NoDup ids → WellFormed tasks →
  (DependencyClosed tasks ids → Acyclic (depends_within tasks ids) →
   ∃ r order,
     get_execution_order ids tasks = Return r tasks
     ∧ Forall2 (λ k t, get_task tasks k = Some t) order r
     ∧ order ≡ₚ existing tasks ids
     ∧ DependenciesFirst tasks order)
  ∧ ((∃ k, k ∈ ids ∧ tc (depends tasks) k k) →
     get_execution_order ids tasks = Raise CycleInGraph tasks).
Proof.
  intros Hnd Hwf.
  destruct (get_execution_order_loop tasks ids Hnd Hwf)
    as (r & deg & fin & Hrun & Hinv).
  destruct (KahnInv_finished _ _ _ _ _ Hinv) as (Hfnd & Hlen & Hfin & Hres).
  assert (∀ k t, (index_tasks tasks ids).1 !! k = Some t →
                 get_task tasks k = Some t) as Hmap.
  { intros k t Hk. by apply index_tasks_get in Hk as [? _]. }
  assert (NoDup (existing tasks ids)) as Hend by by apply NoDup_filter.
  assert (DependenciesFirst tasks fin) as Hfirst.
  { intros i k d Hi Hdep.
    eapply (KahnInv_tc tasks _ Hmap); [exact Hinv| |exact Hi].
    by apply tc_once. }
  unfold get_execution_order. cbv zeta. rewrite Hrun.
  rewrite (size_index_tasks tasks ids Hnd), Hlen. split.
  - intros Hclosed Hacyclic.
    assert (∀ k, k ∈ existing tasks ids → k ∈ fin) as Hall.
    { intros k Hk. destruct (decide (k ∈ fin)) as [|Hnot]; [done|]. exfalso.
      destruct (cycle_among
                  (length (filter (λ x, x ∉ fin) (existing tasks ids)))
                  (depends_within tasks ids)
                  (filter (λ x, x ∉ fin) (existing tasks ids)) eq_refl)
        as [x Hx]; [| |by apply (Hacyclic x)].
      - intros Hnil. assert (k ∈ filter (λ x, x ∉ fin) (existing tasks ids)) as Hin
          by by apply list_elem_of_filter.
        rewrite Hnil in Hin. by apply not_elem_of_nil in Hin.
      - intros x [Hxf Hxe]%list_elem_of_filter.
        pose proof Hxe as [t Ht]%elem_of_existing.
        pose proof (kahn_ready _ _ _ _ _ Hinv x t Ht) as Hready.
        rewrite app_nil_r, <- open_dependencies_none in Hready.
        destruct (filter (λ d, d ∉ fin) (depends_on t)) as [|d ds] eqn:Hopen.
        { destruct Hxf. by apply Hready. }
        assert (d ∈ filter (λ d, d ∉ fin) (depends_on t)) as Hd
          by (rewrite Hopen; by left).
        apply list_elem_of_filter in Hd as [Hdf Hd].
        assert (depends tasks x d) as Hdep.
        { exists t. split; [by apply Hmap|done]. }
        assert (x ∈ ids) as Hxi.
        { unfold existing in Hxe. by apply list_elem_of_filter in Hxe as [_ ?]. }
        pose proof (Hclosed x d Hxi Hdep) as Hde.
        exists d. split; [by apply list_elem_of_filter|].
        split_and!; [done| |done].
        unfold existing in Hde. by apply list_elem_of_filter in Hde as [_ ?]. }
    assert (fin ≡ₚ existing tasks ids) as Hperm.
    { apply NoDup_Permutation; [done..|]. intros k. split; auto. }
    exists r, fin. rewrite decide_False.
    + by split_and!.
    + intros Hne. apply Hne. by rewrite Hperm.
  - intros (k & Hk & Hcyc). case_decide as Hne; [done|]. exfalso.
    assert (fin ≡ₚ existing tasks ids) as Hperm.
    { apply submseteq_length_Permutation; [|lia].
      by apply NoDup_submseteq. }
    assert (k ∈ existing tasks ids) as Hke.
    { unfold existing. apply list_elem_of_filter. split; [|done].
      inversion Hcyc as [? ? (t & Ht & _)|? ? ? (t & Ht & _)]; by eexists. }
    rewrite <- Hperm in Hke. apply list_elem_of_lookup in Hke as [i Hi].
    destruct (KahnInv_tc tasks _ Hmap _ _ _ _ _ Hinv Hcyc i Hi)
      as (j & Hj & Hjk).
    pose proof (NoDup_lookup _ _ _ _ Hfnd Hi Hjk). lia.
Qed.

(** *** B, and A depending on B *)

Lemma WellFormed_two_tasks_linked : WellFormed two_tasks_linked.
Proof.
  assert (WellFormed two_tasks) as Hwf.
  { split.
    - intros a b ta tb. simpl. repeat case_decide; intros; simplify_eq;
        simpl; set_solver.
    - intros k t. simpl. repeat case_decide; intros; simplify_eq; simpl;
        split; apply NoDup_nil_2. }
  apply (add_dependency_WellFormed default_config "A" "B") in Hwf.
  exact Hwf.
Qed.

Lemma depends_two_tasks_linked k d :
  depends two_tasks_linked k d → k = "A" ∧ d = "B".
Proof.
  intros (t & Ht & Hd). simpl in Ht.
  repeat case_decide; simplify_eq; simpl in Hd.
  - by apply not_elem_of_nil in Hd.
  - by apply list_elem_of_singleton in Hd.
Qed.

Lemma Acyclic_two_tasks_linked : Acyclic (depends two_tasks_linked).
Proof.
  assert (∀ x y, tc (depends two_tasks_linked) x y → x = "A" ∧ y = "B") as Hedge.
  { induction 1 as [x y Hxy|x y z Hxy _ IH].
    - by apply depends_two_tasks_linked.
    - apply depends_two_tasks_linked in Hxy as [_ ->]. by destruct IH. }
  intros k Hk. by apply Hedge in Hk as [-> ?].
Qed.

Example get_execution_order_closed_two_tasks :
  (DependencyClosed two_tasks_linked ["A"; "B"] →
   Acyclic (depends_within two_tasks_linked ["A"; "B"]) →
   ∃ r order,
     get_execution_order ["A"; "B"] two_tasks_linked = Return r two_tasks_linked
     ∧ Forall2 (λ k t, get_task two_tasks_linked k = Some t) order r
     ∧ order ≡ₚ existing two_tasks_linked ["A"; "B"]
     ∧ DependenciesFirst two_tasks_linked order)
  ∧ ((∃ k, k ∈ ["A"; "B"] ∧ tc (depends two_tasks_linked) k k) →
     get_execution_order ["A"; "B"] two_tasks_linked
     = Raise CycleInGraph two_tasks_linked).
Proof.
  apply (get_execution_order_closed ["A"; "B"] two_tasks_linked).
  - apply NoDup_cons. split; [|apply NoDup_singleton].
    intros Hin%list_elem_of_singleton. discriminate Hin.
  - apply WellFormed_two_tasks_linked.
Qed.

Example get_execution_order_dependency_first :
  task_id <$> (match get_execution_order ["A"; "B"] two_tasks_linked with
               | Return r _ => r
               | Raise _ _ => []
               end) = ["B"; "A"].
Proof. vm_compute. reflexivity. Qed.

(** C5, at an input where the code departs from it.  The collection is
    well-formed and its dependency relation is acyclic: A depends on B and
    nothing else depends on anything.  Asked to order A alone, the function
    starts A's counter at [len(task.depends_on)] = 1, which counts the
    dependency on B outside the given ids, never takes A off an empty queue
    and raises the cycle error; the in-degree among the given ids is 0 and
    the order the claim requires is [A]. *)
Theorem get_execution_order_outside_dependency :
  NoDup ["A"] ∧ WellFormed two_tasks_linked
  ∧ Acyclic (depends two_tasks_linked)
  ∧ deps_at two_tasks_linked "A" = Some ["B"]
  ∧ existing two_tasks_linked ["A"] = ["A"]
  ∧ get_execution_order ["A"] two_tasks_linked
    = Raise CycleInGraph two_tasks_linked.
Proof.
  split_and!.
  - apply NoDup_singleton.
  - apply WellFormed_two_tasks_linked.
  - apply Acyclic_two_tasks_linked.
  - reflexivity.
  - reflexivity.
  - vm_compute. reflexivity.
Qed.

(** So acyclicity of the given set alone does not make the function
    return. *)
Lemma outside_dependency_raises_cycle :
  ¬ ∀ ids tasks,
      NoDup ids → WellFormed tasks → Acyclic (depends tasks) →
      ∃ r, get_execution_order ids tasks = Return r tasks.
Proof.
  intros Hall.
  destruct (Hall ["A"] two_tasks_linked) as [r Hr].
  - apply NoDup_singleton.
  - apply WellFormed_two_tasks_linked.
  - apply Acyclic_two_tasks_linked.
  - vm_compute in Hr. discriminate Hr.
Qed.

End ExecutionOrder.

(** ** The cycle check decides reachability *)

Section Reachability.
Import Tasks.
Implicit Types (tasks : TaskStore) (visited : gset string) (k d : string).







(** One more edge [a → b] closes a cycle only through a chain from [b]
    back to [a]. *)
Lemma tc_extra_edge (R R' : relation string) a b :
  (∀ x y, R' x y → R x y ∨ (x = a ∧ y = b)) →
  ∀ x y, tc R' x y → tc R x y ∨ (rtc R x a ∧ rtc R b y).
Proof.
  intros Hstep x y Htc. induction Htc as [x y Hxy|x y z Hxy _ IH].
  - destruct (Hstep _ _ Hxy) as [?|[-> ->]]; [left; by apply tc_once|by right].
  - destruct (Hstep _ _ Hxy) as [Hr|[-> ->]], IH as [Hyz|[Hya Hbz]].
    + left. by eapply tc_l.
    + right. split; [by eapply rtc_l|done].
    + right. split; [done|by apply tc_rtc].
    + right. by split.
Qed.



End Reachability.

(** ** Editing dependencies: validation, removal and round trips *)

Section DependencyEdits.
Import Tasks.
Implicit Types (tasks : TaskStore) (config : Config) (k : string) (t : Task).

Ltac run_manager :=
  unfold add_dependency, remove_dependency, has_dependency_cycle, when,
    mbind, M_bind, bind, mret, M_ret, ret, get, mutate, raise; cbn beta iota.

(** An in-place mutation changes the task under its key and nothing else,
    and moves no key. *)
Lemma mutate_spec k (f : Task → Task) tasks :
  ∃ tasks',
    mutate k f tasks = Return () tasks'
    ∧ (∀ k', get_task tasks' k'
             = (λ t, if decide (k' = k) then f t else t) <$> get_task tasks k')
    ∧ keys tasks' = keys tasks.
Proof.
  unfold mutate. destruct (get_task tasks k) as [t|] eqn:Hget.
  - eexists. split_and!; [done| |apply keys_set_task; by rewrite Hget].
    intros k'. rewrite get_set. case_decide as Hk; subst.
    + rewrite Hget. simpl. by rewrite decide_True.
    + destruct (get_task tasks k'); simpl; [|done]. by rewrite decide_False.
  - eexists. split_and!; [done| |done].
    intros k'. destruct (get_task tasks k') eqn:Hget'; simpl; [|done].
    case_decide; [congruence|done].
Qed.



Lemma add_dependency_keys config a b tasks :
  keys (final_store (add_dependency config a b tasks)) = keys tasks.
Proof.
  destruct (add_dependency config a b tasks) as [[] tasks'|e tasks'] eqn:Hadd.
  2:{ by rewrite (add_dependency_Raise _ _ _ _ _ _ Hadd). }
  revert Hadd. run_manager.
  destruct (get_task tasks a) as [ta|] eqn:Ha; [|by destruct (get_task tasks b)].
  destruct (get_task tasks b) as [tb|] eqn:Hb; [|done].
  case_decide as Hab; [done|].
  destruct (_has_dependency_cycle tasks a b); [done|].
  rewrite Ha. cbn beta iota. rewrite get_set_ne, Hb by done. cbn beta iota.
  rewrite get_set_ne, get_set_eq by done. rewrite get_set_eq.
  assert (∀ ta' tb', keys (set_task (set_task tasks a ta') b tb') = keys tasks)
    as Hkeys.
  { intros ta' tb'. rewrite !keys_set_task; [done|by rewrite Ha|].
    by rewrite get_set_ne, Hb. }
  destruct (_ && _ && _).
  - rewrite get_set_ne, get_set_eq by done. intros [= <-]. simpl.
    rewrite keys_set_task; [apply Hkeys|]. by rewrite get_set_ne, get_set_eq.
  - intros [= <-]. apply Hkeys.
Qed.

Lemma remove_dependency_Return a b tasks :
  is_Some (get_task tasks a) → is_Some (get_task tasks b) →
  ∃ tasks',
    remove_dependency a b tasks = Return () tasks'
    ∧ (∀ k, get_task tasks' k =
            (λ t, let t := if decide (k = a)
                           then set_depends_on (remove_first b (depends_on t)) t
                           else t in
                  if decide (k = b)
                  then set_blocks (remove_first a (blocks t)) t else t)
              <$> get_task tasks k)
    ∧ keys tasks' = keys tasks.
Proof.
  intros [ta Ha] [tb Hb].
  unfold remove_dependency, mbind, M_bind, bind, get. rewrite Ha, Hb.
  destruct (mutate_spec a
              (λ t, set_depends_on (remove_first b (depends_on t)) t) tasks)
    as (s1 & -> & Hget1 & Hkeys1).
  destruct (mutate_spec b (λ t, set_blocks (remove_first a (blocks t)) t) s1)
    as (s2 & -> & Hget2 & Hkeys2).
  exists s2. split_and!; [done| |congruence].
  intros k. rewrite Hget2, Hget1. by destruct (get_task tasks k).
Qed.

Lemma remove_first_append_once x l :
  x ∉ l → remove_first x (append_once x l) = l.
Proof.
  intros Hx. unfold append_once. rewrite decide_False by done.
  induction l as [|y l IH]; simpl.
  - by rewrite decide_True.
  - rewrite decide_False by set_solver. f_equal. apply IH. set_solver.
Qed.

(** X4: removing a dependency right after adding it restores the
    collection, except that the status [add_dependency] set is kept: a
    task it auto-blocked stays Blocked. *)
Theorem add_then_remove_dependency config a b tasks tasks1 ta tb :
  add_dependency config a b tasks = Return () tasks1 →
  get_task tasks a = Some ta → get_task tasks b = Some tb →
  b ∉ depends_on ta → a ∉ blocks tb →
  ∃ tasks2,
    remove_dependency a b tasks1 = Return () tasks2
    ∧ keys tasks2 = keys tasks
    ∧ (∀ k, k ≠ a → get_task tasks2 k = get_task tasks k)
    ∧ get_task tasks2 a =
        Some (set_status
                (if auto_block_on_dependency config
                    && bool_decide (status tb ≠ COMPLETED)
                    && bool_decide (status ta = PENDING)
                 then BLOCKED else status ta) ta).
Proof.
  intros Hadd Ha Hb Hdep Hblk.
  destruct (add_dependency_Return _ _ _ _ _ Hadd)
    as (ta' & tb' & Ha' & Hb' & Hab & _ & Ha1 & Hb1 & Hother & _).
  simplify_eq.
  destruct (remove_dependency_Return a b tasks1)
    as (tasks2 & Hrem & Hget2 & Hkeys2); [by rewrite Ha1|by rewrite Hb1|].
  exists tasks2. split_and!; [done| | |].
  - rewrite Hkeys2. rewrite <- (add_dependency_keys config a b tasks).
    by rewrite Hadd.
  - intros k Hka. rewrite Hget2. destruct (decide (k = b)) as [->|Hkb].
    + rewrite Hb1, Hb. simpl. destruct (decide (b = a)); [done|].
      simpl. rewrite remove_first_append_once by done. by destruct tb.
    + rewrite Hother by done. destruct (get_task tasks k); simpl; [|done].
      by rewrite decide_False.
  - rewrite Hget2, Ha1. simpl.
    destruct (decide (a = a)); [|done]. destruct (decide (a = b)); [done|].
    simpl. rewrite remove_first_append_once by done. by destruct ta.
Qed.

Lemma add_then_remove_dependency_witness :
  ∃ tasks2,
    remove_dependency "A" "B" two_tasks_linked = Return () tasks2
    ∧ keys tasks2 = keys two_tasks
    ∧ (∀ k, k ≠ "A" → get_task tasks2 k = get_task two_tasks k)
    ∧ get_task tasks2 "A" = Some (set_status BLOCKED (new_task "A")).
Proof.
  apply (add_then_remove_dependency default_config "A" "B" two_tasks
           two_tasks_linked (new_task "A") (new_task "B"));
    [reflexivity|reflexivity|reflexivity|apply not_elem_of_nil..].
Defined.

(** X5: [remove_dependency] raises for a missing task or dependency and
    leaves the collection alone; otherwise it drops the edge from both
    lists and changes nothing else: no key moves and no status changes, so
    a task that was auto-blocked on the removed dependency stays Blocked. *)
Theorem remove_dependency_spec a b tasks :
  match get_task tasks a, get_task tasks b with
  | None, _ => remove_dependency a b tasks = Raise (TaskNotFound a) tasks
  | Some _, None =>
      remove_dependency a b tasks = Raise (DependencyNotFound b) tasks
  | Some ta, Some tb =>
      ∃ tasks',
        remove_dependency a b tasks = Return () tasks'
        ∧ keys tasks' = keys tasks
        ∧ (∀ k, status <$> get_task tasks' k = status <$> get_task tasks k)
        ∧ (∀ k, deps_at tasks' k =
                if decide (k = a) then Some (remove_first b (depends_on ta))
                else deps_at tasks k)
        ∧ (∀ k, blocks_at tasks' k =
                if decide (k = b) then Some (remove_first a (blocks tb))
                else blocks_at tasks k)
        ∧ (NoDup (depends_on ta) → ¬ depends tasks' a b)
  end.
Proof.
  destruct (get_task tasks a) as [ta|] eqn:Ha.
  2:{ run_manager. rewrite Ha. by destruct (get_task tasks b). }
  destruct (get_task tasks b) as [tb|] eqn:Hb.
  2:{ run_manager. by rewrite Ha, Hb. }
  destruct (remove_dependency_Return a b tasks)
    as (tasks' & Hrem & Hget & Hkeys); [by rewrite Ha|by rewrite Hb|].
  assert (∀ k, deps_at tasks' k =
               if decide (k = a) then Some (remove_first b (depends_on ta))
               else deps_at tasks k) as Hdeps.
  { intros k. unfold deps_at. rewrite Hget. destruct (decide (k = a)) as [->|Hk].
    - rewrite Ha. simpl. by case_decide.
    - destruct (get_task tasks k); simpl; [|done]. by case_decide. }
  exists tasks'. split_and!; [done|done| |done| |].
  - intros k. rewrite Hget. destruct (get_task tasks k); simpl; [|done].
    by repeat case_decide.
  - intros k. unfold blocks_at. rewrite Hget.
    destruct (decide (k = b)) as [->|Hk].
    + rewrite Hb. simpl. by case_decide.
    + destruct (get_task tasks k); simpl; [|done]. by case_decide.
  - intros Hnd (t & Ht & Hin).
    specialize (Hdeps a). unfold deps_at in Hdeps. rewrite Ht in Hdeps.
    rewrite decide_True in Hdeps by done. simplify_eq/=.
    rewrite Hdeps in Hin. apply remove_first_elem_of in Hin; [|done]. naive_solver.
Qed.

End DependencyEdits.

(** ** Creating, updating and deleting tasks *)

Section StoreOperations.
Import Tasks.
Implicit Types (tasks : TaskStore) (config : Config) (k : string) (t : Task).

Lemma pending_count_set_task tasks k t :
  pending_count (set_task tasks k t) ≤ S (pending_count tasks).
Proof.
  unfold pending_count, list_tasks, values.
  induction tasks as [|[k' t'] rest IH]; cbn [set_task].
  - simpl. rewrite filter_cons. case_decide; simpl; lia.
  - case_decide; rewrite !fmap_cons, !filter_cons; cbn [snd];
      repeat case_decide; cbn [length]; lia.
Qed.

Lemma keys_set_task_fresh tasks k t :
  get_task tasks k = None → keys (set_task tasks k t) = keys tasks ++ [k].
Proof.
  intros Hget. rewrite set_task_fresh by done. unfold keys. by rewrite fmap_app.
Qed.



(** X7: below the ceiling [create_task] never refuses an id: a new id is
    appended to the collection, an id already in use keeps its place and
    its stored task is replaced; no other entry changes. *)
Theorem create_task_stores config task tasks :
  pending_count tasks < max_pending_tasks config →
  ∃ tasks',
    create_task config task tasks = Return task tasks'
    ∧ get_task tasks' (task_id task) = Some task
    ∧ (∀ k, k ≠ task_id task → get_task tasks' k = get_task tasks k)
    ∧ keys tasks' = match get_task tasks (task_id task) with
                    | Some _ => keys tasks
                    | None => keys tasks ++ [task_id task]
                    end.
Proof.
  intros Hlt. exists (set_task tasks (task_id task) task).
  split_and!.
  - unfold create_task.
    change (length (filter (λ t, status t = PENDING) (values tasks)))
      with (pending_count tasks).
    by rewrite decide_False by lia.
  - apply get_set_eq.
  - intros k Hk. by apply get_set_ne.
  - destruct (get_task tasks (task_id task)) eqn:Hget.
    + apply keys_set_task. by rewrite Hget.
    + by apply keys_set_task_fresh.
Qed.

Lemma create_task_stores_witness :
  ∃ tasks',
    create_task default_config task_with_edge two_tasks = Return task_with_edge tasks'
    ∧ get_task tasks' "A" = Some task_with_edge
    ∧ (∀ k, k ≠ "A" → get_task tasks' k = get_task two_tasks k)
    ∧ keys tasks' = ["B"; "A"].
Proof.
  apply (create_task_stores default_config task_with_edge two_tasks).
  vm_compute. lia.
Defined.

(** X8: [update_task] raises for a key that names no task and leaves the
    collection alone; otherwise it applies the entries in order to the
    stored task and returns it, and no other entry and no key changes -
    not even when an entry assigns the task's [id]. *)
Theorem update_task_spec k updates tasks :
  match get_task tasks k with
  | None => update_task k updates tasks = Raise (TaskNotFound k) tasks
  | Some t =>
      ∃ tasks',
        update_task k updates tasks = Return (foldl apply_update t updates) tasks'
        ∧ get_task tasks' k = Some (foldl apply_update t updates)
        ∧ (∀ k', k' ≠ k → get_task tasks' k' = get_task tasks k')
        ∧ keys tasks' = keys tasks
  end.
Proof.
  unfold update_task. destruct (get_task tasks k) as [t|] eqn:Hget; [|done].
  eexists. split_and!; [done|apply get_set_eq| |].
  - intros k' Hk'. by apply get_set_ne.
  - apply keys_set_task. by rewrite Hget.
Qed.

Lemma get_next_executable_task_executable tasks t :
  get_next_executable_task tasks = Some t → _is_task_executable tasks t = true.
Proof.
  rewrite get_next_executable_task_head. intros Hhead.
  apply head_Some_elem_of in Hhead.
  rewrite sort_by_key_Permutation in Hhead.
  apply list_elem_of_filter in Hhead as [Hex _]. by destruct (_is_task_executable _ _).
Qed.

(** X9: [delete_task] answers whether the key named a task and removes
    only that entry.  The ids other tasks hold of it stay behind: a task
    that lists the deleted key among its dependencies or subtasks is not
    executable any more and is never handed out by
    [get_next_executable_task]. *)
Theorem delete_task_spec k tasks :
  ∃ tasks',
    delete_task k tasks = Return (bool_decide (is_Some (get_task tasks k))) tasks'
    ∧ get_task tasks' k = None
    ∧ (∀ k', k' ≠ k → get_task tasks' k' = get_task tasks k')
    ∧ (∀ t, k ∈ depends_on t ∨ k ∈ subtasks t →
            _is_task_executable tasks' t = false
            ∧ get_next_executable_task tasks' ≠ Some t).
Proof.
  assert (∃ tasks',
            delete_task k tasks
            = Return (bool_decide (is_Some (get_task tasks k))) tasks'
            ∧ get_task tasks' k = None
            ∧ (∀ k', k' ≠ k → get_task tasks' k' = get_task tasks k'))
    as (tasks' & Hdel & Hk & Hother).
  { unfold delete_task. destruct (get_task tasks k) as [t|] eqn:Hget.
    - exists (del_task tasks k). rewrite bool_decide_eq_true_2 by done.
      split_and!; [done|apply get_del_eq|]. intros k' Hk'. by apply get_del_ne.
    - exists tasks. rewrite bool_decide_eq_false_2 by (by intros [? ?]).
      by split_and!. }
  exists tasks'. split_and!; [done..|].
  intros t Hin.
  assert (_is_task_executable tasks' t = false) as Hex.
  { destruct (_is_task_executable tasks' t) eqn:Hex; [|done].
    apply _is_task_executable_spec in Hex as (Hdeps & Hsubs & _).
    destruct Hin as [Hin|Hin];
      [apply Hdeps in Hin|apply Hsubs in Hin];
      destruct Hin as (t' & Hget & _); congruence. }
  split; [done|]. intros Hnext.
  apply get_next_executable_task_executable in Hnext. congruence.
Qed.

End StoreOperations.

(** ** The task hierarchy: depth and subtask creation *)

Section Hierarchy.
Import Tasks.
Implicit Types (tasks : TaskStore) (config : Config) (limits : Limits)
  (k p pid : string) (t : Task).

Lemma truthy_spec (s : string) : truthy s = true ↔ s ≠ "".
Proof. unfold truthy. case_bool_decide; naive_solver. Qed.










Lemma Acyclic_ranked (R : relation string) (rank : string → nat) :
  (∀ x y, R x y → rank y < rank x) → Acyclic R.
Proof.
  intros Hrank x Hcycle.
  assert (∀ x y, tc R x y → rank y < rank x) as Htc.
  { clear x Hcycle. intros x y Hxy.
    induction Hxy as [x y Hxy|x y z Hxy _ IH]; [by apply Hrank|].
    apply Hrank in Hxy. lia. }
  apply Htc in Hcycle. lia.
Qed.

Lemma Acyclic_family_store : Acyclic (parent_of Orchestrator.family_store).
Proof.
  apply Acyclic_ranked
    with (rank := λ k, if decide (k = "G") then 0
                       else if decide (k = "P") then 1 else 2).
  intros x y (t & Hget & Hpar & _). unfold Orchestrator.family_store in Hget.
  simpl in Hget. repeat case_decide; simplify_eq/=; lia.
Qed.


Example get_task_depth_family :
  get_task_depth Orchestrator.family_store <$> ["G"; "P"; "C1"; "nobody"]
  = [Some 0; Some 1; Some 2; Some 0].
Proof. reflexivity. Qed.

(** *** [create_subtask] *)


Lemma pending_count_set_task_status tasks k t t' :
  get_task tasks k = Some t → status t' = status t →
  pending_count (set_task tasks k t') = pending_count tasks.
Proof.
  unfold pending_count, list_tasks, values. intros Hget Hst.
  induction tasks as [|[k0 t0] rest IH]; [done|]. cbn [set_task get_task] in *.
  case_decide.
  - simplify_eq. rewrite !fmap_cons, !filter_cons. cbn [snd]. rewrite Hst.
    by case_decide.
  - rewrite !fmap_cons, !filter_cons. cbn [snd].
    case_decide; cbn [length]; by rewrite IH.
Qed.

(** What a successful [create_subtask] did. *)
Lemma create_subtask_Return config limits new_id pid priority tasks subtask tasks' :
  new_id ≠ pid →
  create_subtask config limits new_id pid priority tasks = (inr subtask, tasks') →
  ∃ parent d,
    get_task tasks pid = Some parent
    ∧ get_task_depth tasks pid = Some d ∧ d < max_depth limits
    ∧ length (subtasks parent) < max_subtasks_per_task limits
    ∧ pending_count tasks < max_pending_tasks config
    ∧ subtask = new_subtask new_id pid priority
    ∧ tasks' = set_task (set_task tasks new_id subtask) pid
                 (append_subtask new_id parent).
Proof.
  intros Hne. unfold create_subtask.
  destruct (get_task tasks pid) as [parent|] eqn:Hparent; [|done].
  destruct (get_task_depth tasks pid) as [d|]; [|done].
  case_decide; [done|]. case_decide as Hn; [done|].
  unfold create_task.
  change (length (filter (λ t, status t = PENDING) (values tasks)))
    with (pending_count tasks).
  case_decide as Hp; [done|]. rewrite decide_False by done.
  intros [= <- <-]. exists parent, d. split_and!; [done|done|lia..|done|done].
Qed.

(** X12: a subtask created under an id of its own is stored Pending with
    [parent_id] set, and its id is appended to the parent's [subtasks],
    which stay within [max_subtasks_per_task]; nothing else changes, and
    the number of Pending tasks stays within [max_pending_tasks]. *)
Theorem create_subtask_success config limits new_id pid priority tasks
    subtask tasks' :
  new_id ≠ pid →
  create_subtask config limits new_id pid priority tasks = (inr subtask, tasks') →
  subtask = new_subtask new_id pid priority
  ∧ get_task tasks' new_id = Some subtask
  ∧ (∃ parent, get_task tasks pid = Some parent
               ∧ get_task tasks' pid = Some (append_subtask new_id parent)
               ∧ length (subtasks (append_subtask new_id parent))
                 ≤ max_subtasks_per_task limits)
  ∧ (∀ k, k ≠ new_id → k ≠ pid → get_task tasks' k = get_task tasks k)
  ∧ pending_count tasks' ≤ max_pending_tasks config.
Proof.
  intros Hne Hcreate.
  destruct (create_subtask_Return _ _ _ _ _ _ _ _ Hne Hcreate)
    as (parent & d & Hparent & _ & _ & Hn & Hp & -> & ->).
  split_and!.
  - done.
  - rewrite get_set_ne by done. apply get_set_eq.
  - exists parent. split_and!; [done|apply get_set_eq|].
    simpl. rewrite length_app. simpl. lia.
  - intros k Hk1 Hk2. by rewrite !get_set_ne.
  - rewrite (pending_count_set_task_status _ pid parent).
    + pose proof (pending_count_set_task tasks new_id
                    (new_subtask new_id pid priority)). lia.
    + by rewrite get_set_ne.
    + done.
Qed.

Lemma create_subtask_success_witness :
  let tasks' := (create_subtask default_config default_limits
                   "C" "A" (Some HIGH) two_tasks).2 in
  new_subtask "C" "A" (Some HIGH) = new_subtask "C" "A" (Some HIGH)
  ∧ get_task tasks' "C" = Some (new_subtask "C" "A" (Some HIGH))
  ∧ (∃ parent, get_task two_tasks "A" = Some parent
               ∧ get_task tasks' "A" = Some (append_subtask "C" parent)
               ∧ length (subtasks (append_subtask "C" parent)) ≤ 20)
  ∧ (∀ k, k ≠ "C" → k ≠ "A" → get_task tasks' k = get_task two_tasks k)
  ∧ pending_count tasks' ≤ 100.
Proof.
  apply (create_subtask_success default_config default_limits "C" "A"
           (Some HIGH) two_tasks); [done|reflexivity].
Defined.

Lemma _get_task_depth_agree fuel tasks1 tasks2 (P : string → Prop) :
  (∀ k, P k → parent_id <$> get_task tasks1 k = parent_id <$> get_task tasks2 k) →
  (∀ k p, P k → parent_of tasks1 k p → P p) →
  ∀ k, P k → _get_task_depth fuel tasks1 k = _get_task_depth fuel tasks2 k.
Proof.
  intros Hag Hcl. induction fuel as [|fuel IH]; intros k Hk; [done|]. simpl.
  pose proof (Hag k Hk) as Hagk.
  destruct (get_task tasks1 k) as [t1|] eqn:Hget1,
           (get_task tasks2 k) as [t2|]; simplify_eq/=; [|done].
  rewrite <- Hagk. destruct (parent_id t1) as [p|] eqn:Hpar; [|done].
  destruct (truthy p) eqn:Htruthy; [|done].
  rewrite IH; [done|]. apply (Hcl k); [done|].
  exists t1. split; [done|]. split; [done|]. by apply truthy_spec.
Qed.

(** The parent relation after a successful [create_subtask] with a fresh
    id. *)
Lemma create_subtask_parent_of new_id pid priority tasks parent :
  FreshId tasks new_id → get_task tasks pid = Some parent →
  let tasks' := set_task (set_task tasks new_id (new_subtask new_id pid priority))
                  pid (append_subtask new_id parent) in
  new_id ≠ pid
  ∧ (∀ k, k ≠ new_id →
          parent_id <$> get_task tasks k = parent_id <$> get_task tasks' k)
  ∧ (∀ x y, parent_of tasks' x y → parent_of tasks x y ∨ (x = new_id ∧ y = pid)).
Proof.
  intros [Hfresh Hunref] Hparent tasks'.
  assert (new_id ≠ pid) as Hne by congruence.
  assert (∀ k, k ≠ new_id →
               parent_id <$> get_task tasks k = parent_id <$> get_task tasks' k)
    as Hag.
  { intros k Hk. unfold tasks'. destruct (decide (k = pid)) as [->|Hkp].
    - by rewrite get_set_eq, Hparent.
    - by rewrite !get_set_ne. }
  split_and!; [done|done|].
  intros x y (t & Hget & Hpar & Hy). destruct (decide (x = new_id)) as [->|Hx].
  - right. unfold tasks' in Hget. rewrite get_set_ne, get_set_eq in Hget by done.
    by simplify_eq/=.
  - left. specialize (Hag x Hx). rewrite Hget in Hag.
    destruct (get_task tasks x) as [t0|] eqn:Hget0; simplify_eq/=.
    exists t0. split; [done|]. split; [congruence|done].
Qed.

(** X13: a subtask created with a fresh id keeps the hierarchy free of
    parent cycles, and its depth, one more than its parent's, is within
    [max_depth].  (Under a parent stored under the empty key the subtask
    counts as having no parent.) *)
Theorem create_subtask_depth_bound config limits new_id pid priority tasks
    subtask tasks' :
  Acyclic (parent_of tasks) → FreshId tasks new_id →
  create_subtask config limits new_id pid priority tasks = (inr subtask, tasks') →
  Acyclic (parent_of tasks')
  ∧ ∃ d, get_task_depth tasks pid = Some d
         ∧ get_task_depth tasks' new_id = Some (if truthy pid then S d else 0)
         ∧ (if truthy pid then S d else 0) ≤ max_depth limits.
Proof.
  intros Hacyclic Hfresh Hcreate.
  assert (new_id ≠ pid) as Hne.
  { intros ->. destruct Hfresh as [Hfresh _]. unfold create_subtask in Hcreate.
    by rewrite Hfresh in Hcreate. }
  destruct (create_subtask_Return _ _ _ _ _ _ _ _ Hne Hcreate)
    as (parent & d & Hparent & Hdepth & Hd & _ & _ & -> & ->).
  destruct (create_subtask_parent_of new_id pid priority tasks parent Hfresh Hparent)
    as (_ & Hag & Hstep).
  split.
  - intros k Hcycle.
    destruct (tc_extra_edge (parent_of tasks) _ new_id pid Hstep k k Hcycle)
      as [Hold|[Hk Hpk]]; [by eapply Hacyclic|].
    assert (∀ x, rtc (parent_of tasks) x new_id → x = new_id) as Hend.
    { intros x Hx. apply rtc_inv_r in Hx as [->|(y & _ & (t & Hget & Hpar & _))];
        [done|]. destruct Hfresh as [_ Hunref]. by destruct (Hunref y t Hget). }
    apply Hend in Hk as ->. by apply Hend in Hpk.
  - exists d. split; [done|]. split; [|destruct (truthy pid); lia].
    unfold get_task_depth.
    rewrite length_set_task by (rewrite get_set_ne by done; by rewrite Hparent).
    destruct Hfresh as [Hfresh Hunref].
    rewrite set_task_fresh by done. rewrite length_app. simpl.
    replace (length tasks + 1) with (S (length tasks)) by lia.
    rewrite <- set_task_fresh by done.
    set (tasks' := set_task _ pid _).
    assert (get_task tasks' new_id = Some (new_subtask new_id pid priority))
      as Hnew by (unfold tasks'; by rewrite get_set_ne, get_set_eq).
    rewrite Hnew. cbn [parent_id new_subtask].
    destruct (truthy pid) eqn:Htruthy; [|done].
    rewrite <- (_get_task_depth_agree _ tasks _ (λ k, k ≠ new_id)).
    + unfold get_task_depth in Hdepth. by rewrite Hdepth.
    + done.
    + intros k p _ (t & Hget & Hpar & _) ->. by destruct (Hunref k t Hget).
    + done.
Qed.

Lemma FreshId_family_store : FreshId Orchestrator.family_store "N".
Proof.
  split; [done|]. intros k t Hget. unfold Orchestrator.family_store in Hget.
  simpl in Hget. repeat case_decide; simplify_eq/=; split; set_solver.
Qed.

Lemma create_subtask_depth_bound_witness :
  let tasks' := (create_subtask default_config default_limits
                   "N" "C1" None Orchestrator.family_store).2 in
  Acyclic (parent_of tasks')
  ∧ ∃ d, get_task_depth Orchestrator.family_store "C1" = Some d
         ∧ get_task_depth tasks' "N" = Some (if truthy "C1" then S d else 0)
         ∧ (if truthy "C1" then S d else 0) ≤ 5.
Proof.
  apply (create_subtask_depth_bound default_config default_limits "N" "C1" None
           Orchestrator.family_store (new_subtask "N" "C1" None));
    [apply Acyclic_family_store|apply FreshId_family_store|reflexivity].
Defined.




End Hierarchy.

(** ** When [get_execution_order] returns *)

Section ExecutionOrderReturns.
Import Tasks.
Implicit Types (tasks : TaskStore) (ids order : list string) (k d : string).

(** What a returned order tells about the given ids. *)
Lemma get_execution_order_Return ids tasks r tasks' :
  NoDup ids → WellFormed tasks →
  get_execution_order ids tasks = Return r tasks' →
  tasks' = tasks
  ∧ DependencyClosed tasks ids ∧ Acyclic (depends_within tasks ids)
  ∧ ∃ order,
      Forall2 (λ k t, get_task tasks k = Some t) order r
      ∧ order ≡ₚ existing tasks ids
      ∧ DependenciesFirst tasks order.
Proof.
  intros Hnd Hwf.
  destruct (get_execution_order_loop tasks ids Hnd Hwf)
    as (r0 & deg & fin & Hrun & Hinv).
  destruct (KahnInv_finished _ _ _ _ _ Hinv) as (Hfnd & Hlen & Hfin & Hres).
  assert (∀ k t, (index_tasks tasks ids).1 !! k = Some t →
                 get_task tasks k = Some t) as Hmap.
  { intros k t Hk. by apply index_tasks_get in Hk as [? _]. }
  assert (NoDup (existing tasks ids)) as Hend by by apply NoDup_filter.
  assert (DependenciesFirst tasks fin) as Hfirst.
  { intros i k d Hi Hdep.
    eapply (KahnInv_tc tasks _ Hmap); [exact Hinv| |exact Hi].
    by apply tc_once. }
  unfold get_execution_order. cbv zeta. rewrite Hrun.
  rewrite (size_index_tasks tasks ids Hnd), Hlen.
  case_decide as Hne; [done|]. intros [= <- <-].
  assert (fin ≡ₚ existing tasks ids) as Hperm.
  { apply submseteq_length_Permutation; [|lia]. by apply NoDup_submseteq. }
  assert (∀ k, k ∈ ids → is_Some (get_task tasks k) →
               ∃ i, fin !! i = Some k) as Hplace.
  { intros k Hk Hget. apply list_elem_of_lookup. rewrite Hperm.
    unfold existing. by apply list_elem_of_filter. }
  split_and!; [done| | |by exists fin].
  - intros k d Hk Hdep. pose proof Hdep as (t & Ht & _).
    destruct (Hplace k Hk) as [i Hi]; [by eexists|].
    destruct (Hfirst i k d Hi Hdep) as (j & _ & Hj).
    rewrite <- Hperm. apply list_elem_of_lookup. by exists j.
  - intros k Hcycle.
    assert (tc (depends tasks) k k) as Hcyc.
    { eapply tc_absorb; [|exact Hcycle]. intros x y (_ & _ & Hxy). by apply tc_once. }
    assert (k ∈ ids ∧ is_Some (get_task tasks k)) as [Hk Hget].
    { inversion Hcycle as [? ? (? & _ & t & Ht & _)|? ? ? (? & _ & t & Ht & _)];
        split; by eauto. }
    destruct (Hplace k Hk Hget) as [i Hi].
    destruct (KahnInv_tc tasks _ Hmap _ _ _ _ _ Hinv Hcyc i Hi)
      as (j & Hj & Hjk).
    pose proof (NoDup_lookup _ _ _ _ Hfnd Hi Hjk). lia.
Qed.

(** X15: for distinct ids over a well-formed collection,
    [get_execution_order] returns exactly when every dependency of a given
    task is itself a given task and no cycle runs through the given tasks.
    What it returns lists each given task of the collection once, after all
    the tasks it depends on.  Otherwise it raises the cycle error; the
    collection is never changed. *)
Theorem get_execution_order_returns_iff ids tasks :
  NoDup ids → WellFormed tasks →
  ((∃ r, get_execution_order ids tasks = Return r tasks)
   ↔ DependencyClosed tasks ids ∧ Acyclic (depends_within tasks ids))
  ∧ (∀ r tasks',
       get_execution_order ids tasks = Return r tasks' →
       tasks' = tasks
       ∧ ∃ order,
           Forall2 (λ k t, get_task tasks k = Some t) order r
           ∧ order ≡ₚ existing tasks ids
           ∧ DependenciesFirst tasks order)
  ∧ (∀ e tasks',
       get_execution_order ids tasks = Raise e tasks' →
       e = CycleInGraph ∧ tasks' = tasks).
Proof.
  intros Hnd Hwf. split_and!.
  - split.
    + intros [r Hr].
      by destruct (get_execution_order_Return _ _ _ _ Hnd Hwf Hr) as (_ & ? & ? & _).
    + intros [Hclosed Hacyclic].
      destruct (get_execution_order_closed ids tasks Hnd Hwf) as [Hret _].
      destruct (Hret Hclosed Hacyclic) as (r & _ & Hr & _). by exists r.
  - intros r tasks' Hr.
    by destruct (get_execution_order_Return _ _ _ _ Hnd Hwf Hr) as (? & _ & _ & ?).
  - intros e tasks'. unfold get_execution_order. cbv zeta.
    destruct (kahn_loop _ _ _ _ _); [|by intros [= <- <-]].
    case_decide; [by intros [= <- <-]|done].
Qed.

Lemma get_execution_order_returns_iff_witness :
  ((∃ r, get_execution_order ["A"; "B"] two_tasks_linked = Return r two_tasks_linked)
   ↔ DependencyClosed two_tasks_linked ["A"; "B"]
     ∧ Acyclic (depends_within two_tasks_linked ["A"; "B"]))
  ∧ (∀ r tasks',
       get_execution_order ["A"; "B"] two_tasks_linked = Return r tasks' →
       tasks' = two_tasks_linked
       ∧ ∃ order,
           Forall2 (λ k t, get_task two_tasks_linked k = Some t) order r
           ∧ order ≡ₚ existing two_tasks_linked ["A"; "B"]
           ∧ DependenciesFirst two_tasks_linked order)
  ∧ (∀ e tasks',
       get_execution_order ["A"; "B"] two_tasks_linked = Raise e tasks' →
       e = CycleInGraph ∧ tasks' = two_tasks_linked).
Proof.
  apply (get_execution_order_returns_iff ["A"; "B"] two_tasks_linked).
  - apply NoDup_cons_2; [|apply NoDup_singleton].
    by intros [=]%list_elem_of_singleton.
  - apply WellFormed_two_tasks_linked.
Defined.

End ExecutionOrderReturns.

(** ** Interrupt requests in sequence *)

Section InterruptSequences.
Import Interrupt.
Implicit Types (c : InterruptController) (r : Request) (reqs : list Request).

Lemma request_interrupts_snoc c reqs r :
  request_interrupts c (reqs ++ [r]) = request (request_interrupts c reqs) r.
Proof. unfold request_interrupts. by rewrite foldl_app. Qed.

Lemma request_interrupts_count c reqs :
  interrupt_count (request_interrupts c reqs)
  = (_interrupt_count c + Z.of_nat (length reqs))%Z
  ∧ _soft_interrupt_limit (request_interrupts c reqs) = _soft_interrupt_limit c.
Proof.
  induction reqs as [|r reqs IH] using rev_ind.
  - simpl. unfold interrupt_count. split; [lia|done].
  - rewrite request_interrupts_snoc, length_app. destruct IH as [IHc IHl].
    unfold interrupt_count in *. simpl. rewrite IHc. split; [lia|done].
Qed.

(** X16: counted from the last reset, the n-th request leaves the counter
    at n, the event set and the state requested with the reason given; its
    type is the one asked for while n is within the soft limit and HARD
    from the first request beyond it, whatever type is asked for. *)
Theorem request_interrupts_escalation c reqs r :
  let n := Z.of_nat (length reqs + 1) in
  let c' := request_interrupts (reset c) (reqs ++ [r]) in
  interrupt_count c' = n
  ∧ current_type c'
    = (if bool_decide (_soft_interrupt_limit c < n)%Z then HARD else request_type r)
  ∧ check_interrupt c' = Some (_state c')
  ∧ is_interrupted c' = true ∧ _interrupt_event c' = true
  ∧ reason (_state c') = request_reason r
  ∧ _soft_interrupt_limit c' = _soft_interrupt_limit c.
Proof.
  intros n c'. unfold c'. rewrite request_interrupts_snoc.
  destruct (request_interrupts_count (reset c) reqs) as [Hcount Hlimit].
  unfold interrupt_count in Hcount. simpl in Hcount, Hlimit.
  unfold interrupt_count, current_type, check_interrupt, is_interrupted, request.
  simpl. rewrite Hcount, Hlimit.
  replace (0 + Z.of_nat (length reqs) + 1)%Z with n by (unfold n; lia).
  split_and!; try done.
Qed.

(** X17: on every controller reached from its constructor through requests
    and resets, the requested flag, the event and the counter agree: after
    a reset all three are clear and the state is the default one; after a
    request all three are set; and a counter beyond the soft limit means a
    HARD interrupt. *)
Theorem reachable_controller_consistent c :
  Reachable c →
  _interrupt_event c = requested (_state c)
  ∧ (0 ≤ _interrupt_count c)%Z
  ∧ (requested (_state c) = false ↔ _interrupt_count c = 0%Z)
  ∧ (check_interrupt c = None ↔ _interrupt_count c = 0%Z)
  ∧ (_interrupt_count c = 0%Z → _state c = InterruptState_default)
  ∧ ((_soft_interrupt_limit c < _interrupt_count c)%Z →
     (0 < _interrupt_count c)%Z →
     current_type c = HARD).
Proof.
  induction 1 as [limit|c r _ (IH1 & IH2 & IH3 & IH4 & IH5 & IH6)|c _ _].
  - unfold check_interrupt, current_type. simpl. split_and!; try done; lia.
  - unfold check_interrupt, current_type, request. simpl.
    split_and!; try done; try lia; try (split; [done|lia]).
    intros Hlimit _. by rewrite bool_decide_eq_true_2.
  - unfold check_interrupt, current_type. simpl. split_and!; try done; lia.
Qed.

Lemma reachable_controller_consistent_witness :
  let c := request (reset (request (init 2) (mkRequest SOFT USER_REQUEST None 1)))
             (mkRequest SOFT TIMEOUT None 2) in
  _interrupt_event c = requested (_state c)
  ∧ (0 ≤ _interrupt_count c)%Z
  ∧ (requested (_state c) = false ↔ _interrupt_count c = 0%Z)
  ∧ (check_interrupt c = None ↔ _interrupt_count c = 0%Z)
  ∧ (_interrupt_count c = 0%Z → _state c = InterruptState_default)
  ∧ ((_soft_interrupt_limit c < _interrupt_count c)%Z →
     (0 < _interrupt_count c)%Z →
     current_type c = HARD).
Proof.
  apply reachable_controller_consistent. repeat constructor.
Defined.

End InterruptSequences.

(** ** Registering hooks, and what [trigger] can answer *)

Section SortedInsertion.
Context {A : Type} (key : A → Z).

Lemma filter_none (P : A → Prop) `{∀ x, Decision (P x)} (l : list A) :
  Forall (λ x, ¬ P x) l → filter P l = [].
Proof.
  induction 1 as [|x l Hx _ IH]; [done|]. rewrite filter_cons.
  by rewrite decide_False.
Qed.

Lemma insert_by_least x l :
  Forall (λ y, (key x ≤ key y)%Z) l → insert_by key x l = x :: l.
Proof.
  destruct l as [|y l]; [done|]. intros [Hxy _]%Forall_cons. simpl.
  by rewrite decide_True.
Qed.

(** Sorting a sorted list with one more element at its end puts that
    element behind the elements of smaller or equal key, and moves
    nothing else. *)
Lemma sort_by_key_snoc l x :
  Sorted (λ a b, (key a ≤ key b)%Z) l →
  sort_by_key key (l ++ [x])
  = filter (λ y, (key y ≤ key x)%Z) l ++ x :: filter (λ y, (key x < key y)%Z) l.
Proof.
  intros Hsorted. apply Sorted_StronglySorted in Hsorted.
  2:{ intros a b c ? ?. lia. }
  unfold sort_by_key. rewrite foldr_app. simpl.
  induction l as [|y l IH]; [done|].
  apply StronglySorted_inv in Hsorted as [Hsorted Hall].
  simpl. rewrite IH by done. rewrite !filter_cons.
  destruct (decide (key y ≤ key x)%Z) as [Hyx|Hyx].
  - rewrite decide_False by lia. apply insert_by_least.
    apply Forall_app. split.
    + apply Forall_forall. intros z [_ Hz]%list_elem_of_filter.
      by apply (proj1 (Forall_forall _ _) Hall).
    + apply Forall_cons. split; [done|].
      apply Forall_forall. intros z [_ Hz]%list_elem_of_filter.
      by apply (proj1 (Forall_forall _ _) Hall).
  - rewrite decide_True by lia.
    assert (filter (λ z, (key z ≤ key x)%Z) l = []) as ->.
    { apply filter_none. eapply Forall_impl; [exact Hall|]. intros z Hz. simpl in Hz. lia. }
    simpl. rewrite decide_False by done. f_equal. apply insert_by_least.
    apply Forall_forall. intros z [_ Hz]%list_elem_of_filter.
    by apply (proj1 (Forall_forall _ _) Hall).
Qed.

End SortedInsertion.

Section HookRegistry.
Import Hooks.
Context {Any : Type}.
Implicit Types (context : @HookContext Any) (hook : @Hook Any)
  (r : @LoopResult Any) (engine : @HookEngine Any).

Lemma _count_hooks_insert (m : gmap string (list (Z * @Hook Any))) ev l :
  map_fold (λ _ l n, length l + n) 0 (<[ev := l]> m)
  + length (default [] (m !! ev))
  = length l + map_fold (λ _ l n, length l + n) 0 m.
Proof.
  assert (∀ (m' : gmap string (list (Z * @Hook Any))) (j1 j2 : string)
            (z1 z2 : list (Z * @Hook Any)) (y : nat),
            j1 ≠ j2 → m' !! j1 = Some z1 → m' !! j2 = Some z2 →
            length z1 + (length z2 + y) = length z2 + (length z1 + y)) as Hcomm
    by (intros; lia).
  destruct (m !! ev) as [l0|] eqn:Hev; simpl.
  - rewrite <- (insert_delete_eq m).
    rewrite map_fold_insert_L; [|by apply Hcomm|by apply lookup_delete_eq].
    rewrite (map_fold_delete_L _ _ ev l0 m); [lia|by apply Hcomm|done].
  - rewrite map_fold_insert_L; [lia|by apply Hcomm|done].
Qed.

(** X18: [register] puts the hook behind the registered hooks of the same
    event whose priority is lower or equal and before those of higher
    priority, leaving their order as it was; it touches no other event and
    not the enabled flag, and the number of registered hooks grows by
    one. *)
Theorem register_places_by_priority engine ev hook priority :
  Sorted (λ a b, (a.1 ≤ b.1)%Z) (default [] (hooks engine !! ev)) →
  let l := default [] (hooks engine !! ev) in
  let engine' := register engine ev hook priority in
  hooks engine' !! ev
  = Some (filter (λ x, (x.1 ≤ priority)%Z) l
          ++ (priority, hook) :: filter (λ x, (priority < x.1)%Z) l)
  ∧ Sorted (λ a b, (a.1 ≤ b.1)%Z) (default [] (hooks engine' !! ev))
  ∧ (∀ ev', ev' ≠ ev → hooks engine' !! ev' = hooks engine !! ev')
  ∧ is_enabled engine' = is_enabled engine
  ∧ _count_hooks engine' = S (_count_hooks engine).
Proof.
  intros Hsorted l engine'. unfold engine', register. simpl.
  split_and!.
  - rewrite lookup_insert_eq. f_equal. by apply (sort_by_key_snoc fst).
  - rewrite lookup_insert_eq. simpl. apply (sort_by_key_Sorted fst).
  - intros ev' Hne. by rewrite lookup_insert_ne.
  - done.
  - unfold _count_hooks. simpl.
    pose proof (_count_hooks_insert (hooks engine) ev
                  (sort_by_key fst (default [] (hooks engine !! ev)
                                    ++ [(priority, hook)]))) as Hcount.
    rewrite (Permutation_length (sort_by_key_Permutation fst _)) in Hcount.
    rewrite length_app in Hcount. simpl in Hcount. lia.
Qed.

Lemma logged_answers entries r :
  Forall (λ entry, ¬ is_blocked entry) entries →
  answers (finish r).1 (finish r).2 →
  answers (finish (logged entries r)).1 (finish (logged entries r)).2.
Proof.
  intros Hentries. destruct r as [result log|context log]; simpl.
  - intros [(? & ? & ?)|(? & ? & ? & log' & name & why & -> & ? & ?)].
    + left. split_and!; [done..|]. by apply Forall_app.
    + right. split_and!; [done..|]. exists (entries ++ log'), name, why.
      rewrite app_assoc. split_and!; [done..|]. by apply Forall_app.
  - intros [(? & ? & ?)|(? & _)]; [|done].
    left. split_and!; [done..|]. by apply Forall_app.
Qed.

Lemma run_hooks_answers (l : list (Z * @Hook Any)) :
  ∀ context, answers (finish (run_hooks context l)).1 (finish (run_hooks context l)).2.
Proof.
  induction l as [|[priority hook] l IH]; intros context; simpl.
  { left. by split_and!. }
  destruct (should_run hook context) as [context1 [[]|e]].
  - destruct (execute hook context1) as [context2 [result|e]].
    + case_decide as Hblock.
      * right. simpl. split_and!; [done..|].
        exists [Executing (hook_name hook) priority], (hook_name hook),
          (block_reason result).
        split_and!; [done..|]. repeat constructor. by intros [].
      * apply logged_answers; [|apply IH]. repeat constructor. by intros [].
    + apply logged_answers; [|apply IH]. repeat constructor; by intros [].
  - apply logged_answers; [|apply IH]. repeat constructor. by intros [].
  - apply logged_answers; [|apply IH]. repeat constructor. by intros [].
Qed.

(** X19: whatever the hooks do - answer with any action, decline, raise -
    [trigger] answers Continue or Block and nothing else.  A Block answer
    carries the reason logged by the one hook that blocked, which is the
    last hook reached; a Continue answer means no hook blocked.  With the
    hook system disabled, or no hook registered for the event or for ["*"],
    it answers a plain Continue and reaches no hook. *)
Theorem trigger_answers engine ev data0 metadata0 :
  answers (trigger engine ev data0 metadata0).1 (trigger engine ev data0 metadata0).2
  ∧ (is_enabled engine = false ∨ all_hooks_for engine ev = [] →
     trigger engine ev data0 metadata0 = (continue_result, [])).
Proof.
  unfold trigger, is_enabled. split.
  - destruct (enabled engine); simpl; [|left; by split_and!].
    destruct (all_hooks_for engine ev) as [|ph l] eqn:Hall;
      [left; by split_and!|].
    apply run_hooks_answers.
  - intros [->| ->]; [done|]. by destruct (enabled engine).
Qed.

End HookRegistry.

Section HookRegistryExamples.
Import Hooks.

Lemma register_places_by_priority_witness :
  let l := default [] (hooks gate_engine !! "E") in
  let engine' := register gate_engine "E" boom 10 in
  hooks engine' !! "E"
  = Some (filter (λ x, (x.1 ≤ 10)%Z) l
          ++ (10%Z, boom) :: filter (λ x, (10 < x.1)%Z) l)
  ∧ Sorted (λ a b, (a.1 ≤ b.1)%Z) (default [] (hooks engine' !! "E"))
  ∧ (∀ ev', ev' ≠ "E" → hooks engine' !! ev' = hooks gate_engine !! ev')
  ∧ is_enabled engine' = is_enabled gate_engine
  ∧ _count_hooks engine' = S (_count_hooks gate_engine).
Proof.
  apply (register_places_by_priority gate_engine "E" boom 10%Z).
  assert (default [] (hooks gate_engine !! "E") = [(10%Z, gate); (50%Z, late)])
    as -> by (vm_compute; reflexivity).
  repeat constructor. simpl. lia.
Defined.

(** A hook registered with the priority of an earlier one runs after it. *)
Example register_equal_priority :
  (λ ph : Z * @Hook string, (ph.1, hook_name ph.2))
    <$> default [] (hooks (register gate_engine "E" boom 10) !! "E")
  = [(10%Z, "gate"); (10%Z, "boom"); (50%Z, "late")].
Proof. vm_compute. reflexivity. Qed.

End HookRegistryExamples.

(** ** Completion, failure and interruption of a task *)

Section Completion.
Import Tasks Orchestrator.
Implicit Types (tasks s : TaskStore) (k pid cid tid : string) (t p : Task).




(** An InProgress parent whose subtasks are all Completed is auto-completed
    by the check, and stays so while the check goes on above it. *)
Lemma check_parent_completion_completes pid p tasks :
  get_task tasks pid = Some p → status p = IN_PROGRESS → subtasks p ≠ [] →
  (∀ c, c ∈ subtasks p → CompletedIn tasks c) →
  ∃ tasks',
    check_parent_completion pid tasks = Return () tasks'
    ∧ get_task tasks' pid = Some (auto_completed p)
    ∧ ∀ k t, get_task tasks k = Some t → status t ≠ IN_PROGRESS →
             get_task tasks' k = Some t.
Proof.
  intros Hget Hst Hne Hall%forallb_is_completed.
  set (tasks1 := set_task tasks pid (auto_completed p)).
  assert (get_task tasks1 pid = Some (auto_completed p)) as Hget1
    by apply get_set_eq.
  assert (∀ k t, get_task tasks k = Some t → status t ≠ IN_PROGRESS →
                 get_task tasks1 k = Some t) as Hframe1.
  { intros k t Hk Hkst. unfold tasks1. rewrite get_set_ne; [done|].
    intros ->. congruence. }
  unfold check_parent_completion.
  rewrite (_check_parent_completion_complete _ pid p) by done. fold tasks1.
  cbv zeta. destruct (parent_id p) as [gp|]; [|by exists tasks1].
  destruct (truthy gp); [|by exists tasks1].
  destruct (_check_parent_completion_total (length tasks) gp tasks1)
    as (tasks' & -> & Hframe).
  { pose proof (in_progress_count_le tasks).
    assert (in_progress_count tasks1 < in_progress_count tasks); [|lia].
    by apply (in_progress_count_set tasks pid p). }
  exists tasks'. split_and!; [done|by apply Hframe|].
  intros k t Hk Hkst. apply Hframe; [|done]. by apply Hframe1.
Qed.

(** [_handle_task_completion] is the unblocking of the dependents
    followed, for a task with a parent, by the parent check. *)
Lemma _handle_task_completion_stages cid tasks :
  ∃ s1,
    (∀ k, get_task s1 k =
          unblocked tasks (default [] (blocks <$> get_task tasks cid)) k
            <$> get_task tasks k)
    ∧ _handle_task_completion cid tasks =
      match get_task s1 cid with
      | Some ct =>
          match parent_id ct with
          | Some pid =>
              if truthy pid then check_parent_completion pid s1
              else Return () s1
          | None => Return () s1
          end
      | None => Return () s1
      end.
Proof.
  unfold _handle_task_completion, mbind, M_bind, bind.
  destruct (_unblock_dependent_tasks_run cid tasks) as (s1 & -> & Hs1).
  exists s1. split; [done|]. unfold get, ret. cbn beta iota.
  destruct (get_task s1 cid) as [ct|]; [|done].
  destruct (parent_id ct) as [pid|]; [|done]. by destruct (truthy pid).
Qed.

Lemma unblocked_fields tasks l k t :
  parent_id (unblocked tasks l k t) = parent_id t
  ∧ subtasks (unblocked tasks l k t) = subtasks t
  ∧ depends_on (unblocked tasks l k t) = depends_on t
  ∧ blocks (unblocked tasks l k t) = blocks t.
Proof. unfold unblocked. by destruct (_ && _ && _). Qed.

Lemma unblocked_not_blocked tasks l k t :
  status t ≠ BLOCKED → unblocked tasks l k t = t.
Proof.
  intros Hst. unfold unblocked.
  by rewrite (bool_decide_eq_false_2 (status t = BLOCKED)), andb_false_r.
Qed.

Lemma unblocked_not_dependent tasks l k t :
  k ∉ l → unblocked tasks l k t = t.
Proof.
  intros Hk. unfold unblocked. by rewrite (bool_decide_eq_false_2 (k ∈ l)).
Qed.

Lemma get_next_executable_task_pending tasks t :
  get_next_executable_task tasks = Some t → status t = PENDING.
Proof.
  rewrite get_next_executable_task_head. intros Hhead.
  apply head_Some_elem_of in Hhead.
  rewrite sort_by_key_Permutation in Hhead.
  apply executable_filter in Hhead as [_ [Hst _]]. done.
Qed.

(** X21: when the completion of a task auto-completes its parent, the
    tasks waiting on that parent are not looked at: a Blocked task that is
    not among the dependents of the completed task itself stays Blocked,
    even with all its dependencies now Completed, and the scheduler does not
    hand it out. *)
Theorem parent_completion_unblocks_nothing cid tasks tc pid tp d td :
  get_task tasks cid = Some tc → HasParent tc pid →
  get_task tasks pid = Some tp → status tp = IN_PROGRESS → subtasks tp ≠ [] →
  (∀ c, c ∈ subtasks tp → CompletedIn tasks c) →
  get_task tasks d = Some td → status td = BLOCKED → d ∉ blocks tc →
  ∃ tasks',
    _handle_task_completion cid tasks = Return () tasks'
    ∧ get_task tasks' pid = Some (auto_completed tp)
    ∧ get_task tasks' d = Some td
    ∧ (depends_on td = [pid] → ∀ x, x ∈ depends_on td → CompletedIn tasks' x)
    ∧ get_next_executable_task tasks' ≠ Some td.
Proof.
  intros Hcid Hpar Hpid Hpst Hpne Hsubs Hd Hdst Hdblk.
  destruct (_handle_task_completion_stages cid tasks) as (s1 & Hs1 & ->).
  rewrite Hcid in Hs1. simpl in Hs1.
  assert (get_task s1 pid = Some tp) as Hpid1.
  { rewrite Hs1, Hpid. simpl. f_equal. apply unblocked_not_blocked. congruence. }
  assert (get_task s1 d = Some td) as Hd1.
  { rewrite Hs1, Hd. simpl. f_equal. by apply unblocked_not_dependent. }
  assert (∀ c, c ∈ subtasks tp → CompletedIn s1 c) as Hsubs1.
  { intros c Hc. apply is_completed_spec.
    rewrite (is_completed_fmap tasks s1 (unblocked tasks (blocks tc))); [|done|].
    - by apply is_completed_spec, Hsubs.
    - intros k t. apply unblocked_status_completed. }
  destruct (check_parent_completion_completes pid tp s1 Hpid1 Hpst Hpne Hsubs1)
    as (s2 & Hcheck & Hpid2 & Hframe2).
  rewrite Hs1, Hcid. simpl.
  destruct (unblocked_fields tasks (blocks tc) cid tc) as (-> & _).
  destruct Hpar as [-> Hne]. apply truthy_spec in Hne. rewrite Hne, Hcheck.
  exists s2. split_and!; [done|done| | |].
  - apply Hframe2; [done|congruence].
  - intros Hdeps x Hx. rewrite Hdeps in Hx.
    apply list_elem_of_singleton in Hx as ->. eexists. by split.
  - intros Hnext. apply get_next_executable_task_pending in Hnext. congruence.
Qed.

Lemma parent_completion_unblocks_nothing_witness :
  ∃ tasks',
    _handle_task_completion "C" waiting_on_parent = Return () tasks'
    ∧ get_task tasks' "P"
      = Some (auto_completed (make_task "P" IN_PROGRESS None ["C"] [] ["D"]))
    ∧ get_task tasks' "D" = Some (make_task "D" BLOCKED None [] ["P"] [])
    ∧ (depends_on (make_task "D" BLOCKED None [] ["P"] []) = ["P"] →
       ∀ x, x ∈ depends_on (make_task "D" BLOCKED None [] ["P"] []) →
            CompletedIn tasks' x)
    ∧ get_next_executable_task tasks'
      ≠ Some (make_task "D" BLOCKED None [] ["P"] []).
Proof.
  apply (parent_completion_unblocks_nothing "C" waiting_on_parent
           (make_task "C" COMPLETED (Some "P") [] [] []) "P"
           (make_task "P" IN_PROGRESS None ["C"] [] ["D"]) "D"
           (make_task "D" BLOCKED None [] ["P"] []));
    try reflexivity.
  - split; [reflexivity|discriminate].
  - discriminate.
  - intros c Hc. apply list_elem_of_singleton in Hc as ->.
    eexists. split; reflexivity.
  - apply not_elem_of_nil.
Defined.

(** *** [_handle_interrupt] and [_execute_task] *)

(** X22: [_handle_interrupt] never raises.  It leaves the interrupted task
    Pending with the error "Interrupted by user" and the partial result in
    place of whatever result it had; a key that names no task is passed
    over; no other task and no key changes. *)
Theorem handle_interrupt_spec tid partial_result tasks :
  ∃ tasks',
    _handle_interrupt tid partial_result tasks = Return () tasks'
    ∧ keys tasks' = keys tasks
    ∧ (∀ k, k ≠ tid → get_task tasks' k = get_task tasks k)
    ∧ get_task tasks' tid
      = (λ t, set_result partial_result
                (set_error (Some "Interrupted by user") (set_status PENDING t)))
          <$> get_task tasks tid.
Proof.
  unfold _handle_interrupt, try_except, mbind, M_bind, bind, update_task, ret.
  destruct (get_task tasks tid) as [t|] eqn:Hget.
  - eexists. split_and!; [done| | |].
    + apply keys_set_task. by rewrite Hget.
    + intros k Hk. by apply get_set_ne.
    + apply get_set_eq.
  - exists tasks. rewrite Hget. by split_and!.
Qed.





(** X25: [_are_dependencies_met] returns without touching the collection;
    it answers [True] exactly when every id in the task's [depends_on] names
    a Completed task.  A task the scheduler finds executable passes it, and
    so does every task that [_unblock_dependent_tasks] has just turned from
    Blocked to Pending. *)
Theorem are_dependencies_met_spec task tasks :
  ∃ met,
    _are_dependencies_met task tasks = Return met tasks
    ∧ (met = true ↔ ∀ d, d ∈ depends_on task → CompletedIn tasks d)
    ∧ (_is_task_executable tasks task = true → met = true)
    ∧ (∀ cid before k tk,
         _unblock_dependent_tasks cid before = Return () tasks →
         get_task before k = Some tk → status tk = BLOCKED →
         get_task tasks k = Some task → status task = PENDING →
         met = true).
Proof.
  exists (forallb (is_completed tasks) (depends_on task)).
  assert (forallb (is_completed tasks) (depends_on task) = true
          ↔ ∀ d, d ∈ depends_on task → CompletedIn tasks d) as Hmet
    by apply forallb_is_completed.
  split_and!; [|done| |].
  - unfold _are_dependencies_met. by destruct (depends_on task).
  - intros Hex. apply Hmet. by apply _is_task_executable_spec in Hex as (? & _).
  - intros cid before k tk Hrun Hk Hst Hk' Hst'.
    destruct (_unblock_dependent_tasks_run cid before) as (s & Hrun' & Hs).
    rewrite Hrun in Hrun'. injection Hrun' as <-.
    specialize (Hs k) as Hsk. rewrite Hk, Hk' in Hsk. simpl in Hsk.
    injection Hsk as ->.
    unfold unblocked in *.
    destruct (bool_decide (k ∈ _) && bool_decide (status tk = BLOCKED)
              && forallb (is_completed before) (depends_on tk)) eqn:Hcond;
      [|congruence].
    apply andb_prop in Hcond as [_ Hall]. simpl.
    apply forallb_is_completed. intros d Hd. apply is_completed_spec.
    rewrite (is_completed_fmap before tasks
               (unblocked before (default [] (blocks <$> get_task before cid))));
      [|done|intros; apply unblocked_status_completed].
    apply is_completed_spec. by eapply forallb_is_completed.
Qed.

End Completion.

(** ** An interrupted execution *)

Section InterruptedExecution.
Import Tasks Orchestrator.
Implicit Types (tasks s : TaskStore) (k tid : string) (t : Task).



End InterruptedExecution.

(** ** Loading a state file, and the view of a task's relationships *)

Section LoadAndView.
Import Tasks.
Implicit Types (tasks : TaskStore) (doc : list (string * Task)) (k : string).

Lemma load_state_lookup doc :
  NoDup doc.*1 →
  ∀ tasks k,
    get_task (foldl (λ acc kt, set_task acc kt.1 kt.2) tasks doc) k
    = match get_task doc k with
      | Some t => Some t
      | None => get_task tasks k
      end.
Proof.
  induction doc as [|[k0 t0] doc IH]; intros Hnd tasks k; [done|].
  apply NoDup_cons in Hnd as [Hk0 Hnd]. cbn [foldl fst snd get_task].
  rewrite IH by done. case_decide as Hk.
  - subst. destruct (get_task doc k) as [t|] eqn:Hget; [|apply get_set_eq].
    destruct Hk0. apply (get_task_keys doc k). by eexists.
  - destruct (get_task doc k); [done|]. by apply get_set_ne.
Qed.

Lemma load_state_again doc :
  ∀ tasks,
    (∀ k t, (k, t) ∈ doc → get_task tasks k = Some t) →
    foldl (λ acc kt, set_task acc kt.1 kt.2) tasks doc = tasks.
Proof.
  induction doc as [|[k0 t0] doc IH]; intros tasks Hin; [done|].
  cbn [foldl fst snd]. rewrite set_task_same by (apply Hin; by left).
  apply IH. intros k t Hkt. apply Hin. by right.
Qed.

(** X27: [load_state] merges the document into the collection: a key of
    the document now holds the document's task, any other key what it held
    before, so tasks that are not in the document survive the load.
    Loading the same document once more changes nothing. *)
Theorem load_state_merges doc tasks :
  NoDup doc.*1 →
  ∃ tasks',
    load_state doc tasks = Return () tasks'
    ∧ (∀ k, get_task tasks' k = match get_task doc k with
                                | Some t => Some t
                                | None => get_task tasks k
                                end)
    ∧ load_state doc tasks' = Return () tasks'.
Proof.
  intros Hnd. unfold load_state. eexists. split_and!; [done| |].
  - intros k. by apply load_state_lookup.
  - f_equal. apply load_state_again. intros k t Hkt.
    rewrite load_state_lookup by done.
    assert (get_task doc k = Some t) as ->; [|done].
    clear tasks. induction doc as [|[k0 t0] doc IH]; [by apply not_elem_of_nil in Hkt|].
    apply NoDup_cons in Hnd as [Hk0 Hnd]. cbn [get_task].
    apply elem_of_cons in Hkt as [[= -> ->]|Hkt]; [by rewrite decide_True|].
    rewrite decide_False; [by apply IH|]. intros ->. apply Hk0.
    apply list_elem_of_fmap. by exists (k, t).
Qed.

Lemma load_state_merges_witness :
  ∃ tasks',
    load_state [("A", new_task "A"); ("C", new_task "C")] two_tasks_linked
    = Return () tasks'
    ∧ (∀ k, get_task tasks' k
            = match get_task [("A", new_task "A"); ("C", new_task "C")] k with
              | Some t => Some t
              | None => get_task two_tasks_linked k
              end)
    ∧ load_state [("A", new_task "A"); ("C", new_task "C")] tasks'
      = Return () tasks'.
Proof.
  apply (load_state_merges [("A", new_task "A"); ("C", new_task "C")]
           two_tasks_linked).
  apply NoDup_cons_2; [|apply NoDup_singleton].
  by intros [=]%list_elem_of_singleton.
Defined.

(** X28: after [add_dependency(a, b)] has returned, [get_dependencies]
    shows the edge from both ends: the task stored under [b] is among the
    [depends_on] tasks of [a], and the task stored under [a] among the
    [blocks] tasks of [b].  For a key that names no task it raises the
    lookup error; it never changes the collection. *)
Theorem get_dependencies_after_add config a b tasks tasks' :
  add_dependency config a b tasks = Return () tasks' →
  (∃ da db ta tb,
     get_dependencies a tasks' = Return da tasks'
     ∧ get_dependencies b tasks' = Return db tasks'
     ∧ get_task tasks' a = Some ta ∧ get_task tasks' b = Some tb
     ∧ tb ∈ dependencies_depends_on da
     ∧ ta ∈ dependencies_blocks db)
  ∧ (∀ k, get_task tasks' k = None →
          get_dependencies k tasks' = Raise (TaskNotFound k) tasks').
Proof.
  intros Hadd.
  destruct (add_dependency_Return _ _ _ _ _ Hadd)
    as (ta & tb & _ & _ & _ & _ & Ha & Hb & _).
  split.
  - unfold get_dependencies. rewrite Ha, Hb.
    eexists _, _, _, _. split_and!; [done..| |]; simpl.
    + apply list_elem_of_omap. exists b. split; [apply append_once_elem|done].
    + apply list_elem_of_omap. exists a. split; [apply append_once_elem|done].
  - intros k Hk. unfold get_dependencies. by rewrite Hk.
Qed.

Lemma get_dependencies_after_add_witness :
  (∃ da db ta tb,
     get_dependencies "A" two_tasks_linked = Return da two_tasks_linked
     ∧ get_dependencies "B" two_tasks_linked = Return db two_tasks_linked
     ∧ get_task two_tasks_linked "A" = Some ta
     ∧ get_task two_tasks_linked "B" = Some tb
     ∧ tb ∈ dependencies_depends_on da
     ∧ ta ∈ dependencies_blocks db)
  ∧ (∀ k, get_task two_tasks_linked k = None →
          get_dependencies k two_tasks_linked
          = Raise (TaskNotFound k) two_tasks_linked).
Proof.
  apply (get_dependencies_after_add default_config "A" "B" two_tasks).
  reflexivity.
Defined.

End LoadAndView.

(** ** The decomposition tool's dependency operations *)

Section DecomposeTool.
Import Tasks Orchestrator TaskDecompose.
Implicit Types (tasks : TaskStore) (config : Config).

Lemma remove_dependency_Raise a b tasks e tasks' :
  remove_dependency a b tasks = Raise e tasks' → tasks' = tasks.
Proof.
  destruct (get_task tasks a) as [ta|] eqn:Ha, (get_task tasks b) as [tb|] eqn:Hb.
  - destruct (remove_dependency_Return a b tasks) as (s & -> & _);
      [by rewrite Ha|by rewrite Hb|done].
  - unfold remove_dependency, mbind, M_bind, bind, get, raise. cbn beta iota.
    rewrite Ha, Hb. by intros [= _ <-].
  - unfold remove_dependency, mbind, M_bind, bind, get, raise. cbn beta iota.
    rewrite Ha. by intros [= _ <-].
  - unfold remove_dependency, mbind, M_bind, bind, get, raise. cbn beta iota.
    rewrite Ha. by intros [= _ <-].
Qed.

Lemma manager_call_Raise config operation a b tasks e tasks' :
  manager_call config operation a b tasks = Raise e tasks' → tasks' = tasks.
Proof.
  destruct operation; [apply add_dependency_Raise|apply remove_dependency_Raise].
Qed.


(** A call that would close a cycle comes back as a failure with the
    manager's message. *)
Example tool_reports_cycle :
  execute default_config true (Some "B") ToolAddDependency None (Some "A")
    two_tasks_linked
  = (ToolFailure "Adding dependency B -> A would create a cycle", two_tasks_linked).
Proof. vm_compute. reflexivity. Qed.

End DecomposeTool.

(** ** The hooks of an event, listed and run *)

Section HooksForEvent.
Import Hooks.
Context {Any : Type}.
Implicit Types (engine : @HookEngine Any).

(** Sorting a sorted list changes nothing. *)
Lemma sort_by_key_sorted {A} (key : A → Z) (l : list A) :
  Sorted (λ a b, (key a ≤ key b)%Z) l → sort_by_key key l = l.
Proof.
  intros Hsorted. apply Sorted_StronglySorted in Hsorted.
  2:{ intros a b c ? ?. lia. }
  induction l as [|x l IH]; [done|].
  apply StronglySorted_inv in Hsorted as [Hsorted Hall].
  simpl. fold (sort_by_key key l). rewrite IH by done.
  by apply insert_by_least.
Qed.

(** X30: [get_hooks_for_event] lists the hooks [trigger] goes through for
    the event, each as often as [trigger] meets it, with the hooks of the
    event before the wildcard hooks instead of by priority.  For an event
    whose own hooks are sorted by priority, as [register] leaves them, and
    with no wildcard hook registered, the two orders are the same. *)
Theorem get_hooks_for_event_spec engine ev :
  get_hooks_for_event engine ev ≡ₚ (all_hooks_for engine ev).*2
  ∧ (Sorted (λ a b, (a.1 ≤ b.1)%Z) (default [] (hooks engine !! ev)) →
     default [] (hooks engine !! "*") = [] →
     get_hooks_for_event engine ev = (all_hooks_for engine ev).*2).
Proof.
  unfold get_hooks_for_event. split.
  - rewrite all_hooks_for_Permutation. by rewrite fmap_app.
  - intros Hsorted Hnone. unfold all_hooks_for. rewrite Hnone.
    rewrite fmap_nil, !app_nil_r. by rewrite (sort_by_key_sorted fst).
Qed.

End HooksForEvent.

Section HooksForEventExamples.
Import Hooks.

(** With a wildcard hook of lower priority value the two orders differ. *)
Example get_hooks_for_event_order :
  let engine := register gate_engine "*" boom 20 in
  hook_name <$> get_hooks_for_event engine "E" = ["gate"; "late"; "boom"]
  ∧ hook_name <$> (all_hooks_for engine "E").*2 = ["gate"; "boom"; "late"].
Proof. vm_compute. by split. Qed.

End HooksForEventExamples.
